(** * The chat session pipeline of the rebalancing dashboard

    A shallow embedding of the four pieces of the web front end that carry a
    conversational turn:

    - [ChatPane] (components/chat/chat-pane.tsx): the client state machine
      with its two asynchronous handlers [onFilesChanged] and [sendMessage];
    - the relay (app/api/chat/route.ts, [POST]);
    - the attachment endpoint (app/api/files/route.ts, [POST]);
    - the history loader (app/chat/history-loader.ts, [loadChatHistory]) on
      top of [backend] (lib/backend.ts).

    Asynchronous functions are embedded as finite programs over an event
    signature: every [await] of an outside answer is a node of the program
    whose continuation receives the answer, so that "before the call
    resolves" and "after it resolved" are both visible in the model.
    [Overlap] runs the handlers of the pane as the event loop does, one
    starting while another waits for its answer. *)

From Stdlib Require Import List ZArith NArith Lia String Ascii Bool DecimalString.
From Stdlib Require DecimalPos DecimalZ.
Import ListNotations.
Local Open Scope list_scope.

(* ===================================================================== *)
(** ** JavaScript strings *)
(* ===================================================================== *)

(** A JavaScript string is a sequence of UTF-16 code units.  [trim], the
    regular expression of the attachment endpoint (it has no [u] flag) and
    string concatenation all work on code units. *)
Module Js.

Definition jsstring : Type := list N.

(** An ASCII literal of the source as a JavaScript string. *)
Definition lit (s : string) : jsstring :=
  map N_of_ascii (list_ascii_of_string s).

(** ToBoolean on a string: the empty string is the only falsy one. *)
Definition truthy (s : jsstring) : bool :=
  match s with [] => false | _ :: _ => true end.

(** [a || b] on strings. *)
Definition or_else (a b : jsstring) : jsstring :=
  if truthy a then a else b.

(** ECMAScript WhiteSpace and LineTerminator code units, the ones
    [String.prototype.trim] strips. *)
Definition isWhiteSpace (c : N) : bool :=
  existsb (N.eqb c)
    [9; 10; 11; 12; 13; 32; 160; 5760; 8232; 8233; 8239; 8287; 12288; 65279]%N
  || ((8192 <=? c) && (c <=? 8202))%N.

Fixpoint trimStart (s : jsstring) : jsstring :=
  match s with
  | [] => []
  | c :: r => if isWhiteSpace c then trimStart r else s
  end.

Definition trimEnd (s : jsstring) : jsstring := rev (trimStart (rev s)).

Definition trim (s : jsstring) : jsstring := trimEnd (trimStart s).

(** [Array.prototype.join]. *)
Fixpoint join (sep : jsstring) (l : list jsstring) : jsstring :=
  match l with
  | [] => []
  | [x] => x
  | x :: r => x ++ sep ++ join sep r
  end.

(** The integers that a JavaScript number holds exactly,
    [Number.isSafeInteger]. *)
Definition MAX_SAFE_INTEGER : Z := 9007199254740991.

Definition isSafeInteger (z : Z) : bool :=
  ((- MAX_SAFE_INTEGER <=? z) && (z <=? MAX_SAFE_INTEGER))%Z.

(** [String(n)] for a number [n] that is a safe integer: its decimal
    numeral.  Response statuses and clock readings are such numbers; of a
    number beyond the safe integers, [String] gives rounded digits or the
    exponent form, which this function does not describe. *)
Definition String_of_int (z : Z) : jsstring :=
  lit (NilZero.string_of_int (Z.to_int z)).

Definition newline : N := 10%N.

(** The code units of a decimal numeral: the digits and the minus sign. *)
Definition numeral_char (c : N) : bool :=
  (((48 <=? c) && (c <=? 57)) || (c =? 45))%N.



End Js.
Import Js.

(* ===================================================================== *)
(** ** Asynchronous programs *)
(* ===================================================================== *)

(** What a [throw], a rejected promise or a failing platform call raises. *)
Inductive Exn : Type :=
| Error (msg : jsstring)      (* [new Error(msg)] *)
| FetchFailed                 (* [fetch] rejected: the request could not be sent *)
| JsonFailed                  (* [res.json()] rejected *)
| FsFailed                    (* a [fs] promise rejected *)
| RangeError                  (* a response status outside 200..599 *)
| TypeError.                  (* a body given to a null-body status *)

Section Programs.

Context {E : Type -> Type}.

(** A program returns, throws, or performs an event and continues with
    the answer. *)
Inductive Prog (A : Type) : Type :=
| Ret (a : A)
| Throw (e : Exn)
| Vis (X : Type) (ev : E X) (k : X -> Prog A).

Arguments Ret {A} a.
Arguments Throw {A} e.
Arguments Vis {A X} ev k.

Definition trigger {X} (ev : E X) : Prog X := Vis ev (fun x => Ret x).

Fixpoint bind {A B} (p : Prog A) (f : A -> Prog B) : Prog B :=
  match p with
  | Ret a => f a
  | Throw e => Throw e
  | Vis ev k => Vis ev (fun x => bind (k x) f)
  end.

(** [try { p } catch (err) { h err }]. *)
Fixpoint try_catch {A} (p : Prog A) (h : Exn -> Prog A) : Prog A :=
  match p with
  | Ret a => Ret a
  | Throw e => h e
  | Vis ev k => Vis ev (fun x => try_catch (k x) h)
  end.

(** [try { p } finally { f }]: [f] runs on both exits and the exit of [p]
    is kept (unless [f] itself throws). *)
Fixpoint try_finally {A} (p : Prog A) (f : Prog unit) : Prog A :=
  match p with
  | Ret a => bind f (fun _ => Ret a)
  | Throw e => bind f (fun _ => Throw e)
  | Vis ev k => Vis ev (fun x => try_finally (k x) f)
  end.

(** *** Running a program against an environment *)

Section Interp.

Context {S O : Type}.

(** A handler answers an event in a state, and says what an observer
    sees of it. *)
Variable h : forall X, E X -> S -> S * list O * X.

Fixpoint interp {A} (p : Prog A) (s : S) : S * list O * (Exn + A) :=
  match p with
  | Ret a => (s, [], inr a)
  | Throw e => (s, [], inl e)
  | Vis ev k =>
      let '(s1, o, x) := h _ ev s in
      let '(s2, t, r) := interp (k x) s1 in
      (s2, o ++ t, r)
  end.

(** Where a program stands when it first has to wait. *)
Inductive Suspended (A : Type) : Type :=
| Settled (r : Exn + A)
| Awaiting (X : Type) (ev : E X) (k : X -> Prog A).

Arguments Settled {A} r.
Arguments Awaiting {A X} ev k.

(** A synchronous handler answers only the events that need no waiting. *)
Variable hs : forall X, E X -> S -> option (S * list O * X).

Fixpoint interp_sync {A} (p : Prog A) (s : S) : S * list O * Suspended A :=
  match p with
  | Ret a => (s, [], Settled (inr a))
  | Throw e => (s, [], Settled (inl e))
  | Vis ev k =>
      match hs _ ev s with
      | Some (s1, o, x) =>
          let '(s2, t, r) := interp_sync (k x) s1 in (s2, o ++ t, r)
      | None => (s, [], Awaiting ev k)
      end
  end.

(** Resuming: the answer of the awaited event comes from the full
    handler, and the rest runs to the end. *)
Definition resume {A} (st : S * list O * Suspended A) : S * list O * (Exn + A) :=
  match st with
  | (s1, t1, Settled r) => (s1, t1, r)
  | (s1, t1, Awaiting ev k) =>
      let '(s2, o, x) := h _ ev s1 in
      let '(s3, t3, r) := interp (k x) s2 in
      (s3, t1 ++ o ++ t3, r)
  end.

End Interp.

End Programs.

Arguments Prog E A : clear implicits.
Arguments Ret {E A} a.
Arguments Throw {E A} e.
Arguments Vis {E A X} ev k.
Arguments Settled {E A} r.
Arguments Awaiting {E A X} ev k.

Declare Scope prog_scope.
Delimit Scope prog_scope with prog.
Notation "x <- p ;; q" := (bind p (fun x => q))
  (at level 61, p at next level, right associativity) : prog_scope.
Notation "p ;; q" := (bind p (fun _ => q))
  (at level 61, right associativity) : prog_scope.
Local Open Scope prog_scope.

(* ===================================================================== *)
(** ** The Fetch API, as the four components use it *)
(* ===================================================================== *)

(** A response: its status, its body as text, and what [res.json()] gives
    at the type the caller declares ([None] when the promise rejects). *)
Record Response (T : Type) : Type := mkResponse {
  status : Z;
  text : jsstring;
  json : option T
}.
Arguments mkResponse {T} _ _ _.
Arguments status {T} _.
Arguments text {T} _.
Arguments json {T} _.

(** [res.ok]: the status is in the range 200-299. *)
Definition ok {T} (res : Response T) : bool :=
  ((200 <=? status res) && (status res <=? 299))%Z.

(** The promise of a [fetch]: rejected when the request cannot be sent,
    resolved with a response of any status otherwise. *)
Inductive FetchResult (T : Type) : Type :=
| Rejected
| Resolved (res : Response T).
Arguments Rejected {T}.
Arguments Resolved {T} res.

(** A call that failed: the transport gave up, or the status is not 2xx. *)
Definition failed {T} (r : FetchResult T) : bool :=
  match r with
  | Rejected => true
  | Resolved res => negb (ok res)
  end.

(** [await fetch(...)]. *)
Definition await {E : Type -> Type} {T} (ev : E (FetchResult T)) : Prog E (Response T) :=
  Vis ev (fun r => match r with
                   | Rejected => Throw FetchFailed
                   | Resolved res => Ret res
                   end).

(** [await res.json() as T]. *)
Definition res_json {E : Type -> Type} {T} (res : Response T) : Prog E T :=
  match json res with
  | Some v => Ret v
  | None => Throw JsonFailed
  end.

(** [process.env] and [process.cwd()] of the server. *)
Record Process : Type := {
  NEXT_PUBLIC_BACKEND_URL : option jsstring;
  cwd : jsstring
}.

(* ===================================================================== *)
(** ** Data model *)
(* ===================================================================== *)

Inductive Role : Type := user | assistant | system.

Definition Role_eqb (a b : Role) : bool :=
  match a, b with
  | user, user | assistant, assistant | system, system => true
  | _, _ => false
  end.

(** [type ChatMessage = { id; role; content }]. *)
Record ChatMessage : Type := {
  id : jsstring;
  role : Role;
  content : jsstring
}.

(** A picked file: its name and its bytes. *)
Record File : Type := {
  name : jsstring;
  bytes : list N
}.

(** The JSON body the chat pane posts to the relay,
    [{ messages, strategyId, walletIds, message }]; a field that is
    [undefined] is dropped by [JSON.stringify] and absent after parsing. *)
Module Body.
Record t : Type := {
  messages : option (list ChatMessage);
  strategyId : option jsstring;
  walletIds : option (list jsstring);
  message : option jsstring
}.
End Body.

(** The agent backend's chat endpoint: request
    [{ message, strategy_id, wallet_ids }] and answer
    [{ message_id, agent_response }]. *)
Module Agent.
Record request : Type := {
  message : jsstring;
  strategy_id : option jsstring;
  wallet_ids : option (list jsstring)
}.
Record answer : Type := {
  message_id : jsstring;
  agent_response : jsstring
}.
End Agent.

(** What a route handler answers with [NextResponse.json(value, init)]. *)
Inductive Json : Type :=
| JMessage (message : ChatMessage)      (* [{ message }] *)
| JError (error : jsstring)             (* [{ error }] *)
| JUrls (urls : list jsstring).         (* [{ urls }] *)

Record NextResponse : Type := {
  init_status : Z;
  payload : Json
}.

(** The statuses whose response cannot have a body. *)
Definition null_body_status (status : Z) : bool :=
  existsb (Z.eqb status) [101; 103; 204; 205; 304]%Z.

(** [NextResponse.json(value, { status })], 200 being the status of a call
    without [init].  The constructor of the response throws a [RangeError]
    for a status outside 200..599 and a [TypeError] for a null-body status,
    the value being a body. *)
Definition NextResponse_json {E : Type -> Type} (value : Json) (status : Z)
    : Prog E NextResponse :=
  if negb ((200 <=? status) && (status <=? 599))%Z then Throw RangeError
  else if null_body_status status then Throw TypeError
  else Ret {| init_status := status; payload := value |}.
Arguments NextResponse_json : simpl never.

(** What building a response gives: the response, or the error of its
    constructor. *)
Definition built (value : Json) (status : Z) : Exn + NextResponse :=
  if negb ((200 <=? status) && (status <=? 599))%Z then inl RangeError
  else if null_body_status status then inl TypeError
  else inr {| init_status := status; payload := value |}.

(* ===================================================================== *)
(** ** app/api/chat/route.ts: the relay *)
(* ===================================================================== *)

Module ChatRoute.

Variant RelayE : Type -> Type :=
| FetchBackend (url : jsstring) (body : Agent.request) : RelayE (FetchResult Agent.answer).

(** The URL of the agent backend's chat endpoint,
    [`${process.env.NEXT_PUBLIC_BACKEND_URL ?? "http://localhost:8000"}/api/chat`]. *)
Definition chat_url (proc : Process) : jsstring :=
  match NEXT_PUBLIC_BACKEND_URL proc with
  | Some u => u
  | None => lit "http://localhost:8000"
  end ++ lit "/api/chat".

(** The object [{ message: userText, strategy_id: strategyId, wallet_ids:
    walletIds }] built from the parsed body: [userText] is the content of
    the last entry of [body.messages] whose role is user, and the empty
    string without one. *)
Definition forwarded (body : Body.t) : Agent.request :=
  let messages := match Body.messages body with Some l => l | None => [] end in
  let strategyId := Body.strategyId body in
  let walletIds := Body.walletIds body in
  let lastUser := find (fun m => Role_eqb (role m) user) (rev messages) in
  let userText := match lastUser with Some m => content m | None => [] end in
  {| Agent.message := userText;
     Agent.strategy_id := strategyId;
     Agent.wallet_ids := walletIds |}.

Definition POST (proc : Process) (body : Body.t) : Prog RelayE NextResponse :=
  res <- await (FetchBackend (chat_url proc) (forwarded body)) ;;
  if negb (ok res) then
    let errorText := text res in
    NextResponse_json (JError (or_else errorText (lit "Chat backend error")))
      (status res)
  else
    data <- res_json res ;;
    NextResponse_json
      (JMessage {| id := Agent.message_id data;
                   role := assistant;
                   content := Agent.agent_response data |})
      200.

(** The relay keeps no state; an observer sees the requests it sends to the
    agent backend. *)
Definition handle (agent : jsstring -> Agent.request -> FetchResult Agent.answer)
    X (ev : RelayE X) (s : unit) : unit * list (jsstring * Agent.request) * X :=
  match ev in RelayE X return unit * list (jsstring * Agent.request) * X with
  | FetchBackend url body => (s, [(url, body)], agent url body)
  end.

Definition run (agent : jsstring -> Agent.request -> FetchResult Agent.answer)
    (proc : Process) (body : Body.t) : list (jsstring * Agent.request) * (Exn + NextResponse) :=
  let '(_, sent, r) := interp (handle agent) (POST proc body) tt in (sent, r).

End ChatRoute.

(* ===================================================================== *)
(** ** Platform functions on texts and paths *)
(* ===================================================================== *)

(** Strict equality of strings and [String.prototype.split] with a
    one-unit separator. *)
Module JsText.

Fixpoint eqb (a b : jsstring) : bool :=
  match a, b with
  | [], [] => true
  | x :: a', y :: b' => (x =? y)%N && eqb a' b'
  | _, _ => false
  end.

Fixpoint split_aux (sep : N) (cur : jsstring) (s : jsstring) : list jsstring :=
  match s with
  | [] => [rev cur]
  | c :: r =>
      if (c =? sep)%N then rev cur :: split_aux sep [] r
      else split_aux sep (c :: cur) r
  end.

Definition split (sep : N) (s : jsstring) : list jsstring := split_aux sep [] s.

Definition comma : N := 44%N.

End JsText.

(** [path.join] and [path.normalize] of Node.js, POSIX flavour. *)
Module Path.

Definition slash : N := 47%N.
Definition dot : jsstring := [46%N].
Definition dotdot : jsstring := [46%N; 46%N].

(** [normalizeString], segment by segment: [res] holds the segments kept so
    far, the last one first.  An empty segment and [.] are dropped; [..]
    removes the last segment kept, unless there is none or it is [..]
    itself, in which case [..] is kept when the path may climb above its
    start; every other segment is kept. *)
Fixpoint normalizeString (allowAboveRoot : bool) (res : list jsstring)
    (segments : list jsstring) : list jsstring :=
  match segments with
  | [] => res
  | seg :: rest =>
      if JsText.eqb seg [] || JsText.eqb seg dot
      then normalizeString allowAboveRoot res rest
      else if JsText.eqb seg dotdot then
        match res with
        | top :: below =>
            if JsText.eqb top dotdot
            then normalizeString allowAboveRoot
                   (if allowAboveRoot then dotdot :: res else res) rest
            else normalizeString allowAboveRoot below rest
        | [] =>
            normalizeString allowAboveRoot
              (if allowAboveRoot then [dotdot] else []) rest
        end
      else normalizeString allowAboveRoot (seg :: res) rest
  end.

Definition normalize (path : jsstring) : jsstring :=
  match path with
  | [] => dot
  | c :: _ =>
      let isAbsolute := (c =? slash)%N in
      let trailingSeparator :=
        match rev path with d :: _ => (d =? slash)%N | [] => false end in
      let kept :=
        join [slash]
          (rev (normalizeString (negb isAbsolute) [] (JsText.split slash path))) in
      match kept with
      | [] => if isAbsolute then [slash]
              else if trailingSeparator then dot ++ [slash] else dot
      | _ => (if isAbsolute then [slash] else [])
               ++ kept ++ (if trailingSeparator then [slash] else [])
      end
  end.

(** [path.join(...args)]: the arguments that are not empty, joined with
    slashes and normalised. *)
Definition join (args : list jsstring) : jsstring :=
  match filter truthy args with
  | [] => dot
  | parts => normalize (Js.join [slash] parts)
  end.

End Path.

(* ===================================================================== *)
(** ** app/api/files/route.ts: the attachment endpoint *)
(* ===================================================================== *)

Module FilesRoute.

(** The character class [a-zA-Z0-9.\-_] of the regular expression. *)
Definition in_class (c : N) : bool :=
  (((97 <=? c) && (c <=? 122)) || ((65 <=? c) && (c <=? 90))
   || ((48 <=? c) && (c <=? 57))
   || (c =? 46) || (c =? 45) || (c =? 95))%N.

(** [name.replace(/[^a-zA-Z0-9.\-_]/g, "_")]: every code unit outside the
    class becomes an underscore. *)
Definition replace_unsafe (name : jsstring) : jsstring :=
  map (fun c => if in_class c then c else 95%N) name.

(** [path.join] of Node.js. *)
Definition path_join (args : list jsstring) : jsstring := Path.join args.

(** The disk: the files by their paths, no path twice. *)
Definition Disk : Type := list (jsstring * list N).

(** [fs.writeFile(path, data)]: the file at [path] holds [data] afterwards,
    whether there was one before or not. *)
Definition write (path : jsstring) (data : list N) (disk : Disk) : Disk :=
  (path, data) :: filter (fun e => negb (JsText.eqb (fst e) path)) disk.

(** What the disk holds at [path]. *)
Definition read (path : jsstring) (disk : Disk) : option (list N) :=
  option_map snd (find (fun e => JsText.eqb (fst e) path) disk).

Variant FilesE : Type -> Type :=
| Mkdir (dir : jsstring) : FilesE bool                       (* [false]: rejected *)
| DateNow : FilesE Z
| WriteFile (path : jsstring) (data : list N) : FilesE bool.  (* [false]: rejected *)

(** [await] of a [fs] promise. *)
Definition fs_await (ev : FilesE bool) : Prog FilesE unit :=
  Vis ev (fun fulfilled : bool => if fulfilled then Ret tt else Throw FsFailed).

(** [`${Date.now()}-${file.name.replace(/[^a-zA-Z0-9.\-_]/g, "_")}`], with
    the clock reading [now]. *)
Definition safeName (now : Z) (file : File) : jsstring :=
  String_of_int now ++ lit "-" ++ replace_unsafe (name file).

(** The [for (const file of files)] loop, with the [urls] pushed so far. *)
Fixpoint for_files (uploadsDir : jsstring) (files : list File) (urls : list jsstring)
    : Prog FilesE (list jsstring) :=
  match files with
  | [] => Ret urls
  | file :: rest =>
      let buffer := bytes file in
      now <- trigger DateNow ;;
      let filePath := path_join [uploadsDir; safeName now file] in
      fs_await (WriteFile filePath buffer) ;;
      for_files uploadsDir rest (urls ++ [lit "/uploads/" ++ safeName now file])
  end.

Definition POST (proc : Process) (files : list File) : Prog FilesE NextResponse :=
  let uploadsDir := path_join [cwd proc; lit "public"; lit "uploads"] in
  fs_await (Mkdir uploadsDir) ;;
  urls <- for_files uploadsDir files [] ;;
  NextResponse_json (JUrls urls) 200.

(** The server's surroundings: the clock readings and the fate of the
    file-system calls, in the order they are made. *)
Record World : Type := {
  clock : nat -> Z;
  mkdir_ok : bool;
  write_ok : nat -> bool
}.

(** Storage: how many clock readings and writes were made, and the disk. *)
Record Storage : Type := {
  readings : nat;
  writes : nat;
  disk : Disk
}.

Definition handle (w : World) X (ev : FilesE X) (s : Storage) : Storage * list jsstring * X :=
  match ev in FilesE X return Storage * list jsstring * X with
  | Mkdir _ => (s, [], mkdir_ok w)
  | DateNow =>
      ({| readings := S (readings s); writes := writes s; disk := disk s |},
       [], clock w (readings s))
  | WriteFile path data =>
      if write_ok w (writes s) then
        ({| readings := readings s; writes := S (writes s);
            disk := write path data (disk s) |}, [path], true)
      else
        ({| readings := readings s; writes := S (writes s); disk := disk s |},
         [], false)
  end.

Definition run (w : World) (proc : Process) (files : list File) (s : Storage)
    : Storage * list jsstring * (Exn + NextResponse) :=
  interp (handle w) (POST proc files) s.

End FilesRoute.

(* ===================================================================== *)
(** ** lib/backend.ts and app/chat/history-loader.ts *)
(* ===================================================================== *)

(** [URLSearchParams] of the URL standard: an ordered list of name-value
    pairs, serialised as application/x-www-form-urlencoded. *)
Module URLSearchParams.

Definition t : Type := list (jsstring * jsstring).

Fixpoint eqb (a b : jsstring) : bool :=
  match a, b with
  | [], [] => true
  | x :: a', y :: b' => (x =? y)%N && eqb a' b'
  | _, _ => false
  end.

(** [params.set(name, value)]: the first pair of that name takes the value
    and the others are removed; without one, the pair is appended. *)
Fixpoint set (name value : jsstring) (l : t) : t :=
  match l with
  | [] => [(name, value)]
  | (n, v) :: r =>
      if eqb n name
      then (n, value) :: filter (fun p => negb (eqb (fst p) name)) r
      else (n, v) :: set name value r
  end.



(** Code units to scalar values: a surrogate pair is one scalar value, a
    lone surrogate becomes U+FFFD. *)
Fixpoint scalar_values (s : jsstring) : list N :=
  match s with
  | [] => []
  | c :: r =>
      if ((55296 <=? c) && (c <=? 56319))%N then
        match r with
        | d :: r' =>
            if ((56320 <=? d) && (d <=? 57343))%N
            then (65536 + (c - 55296) * 1024 + (d - 56320))%N :: scalar_values r'
            else 65533%N :: scalar_values r
        | [] => [65533%N]
        end
      else if ((56320 <=? c) && (c <=? 57343))%N then 65533%N :: scalar_values r
      else c :: scalar_values r
  end.

Definition utf8 (v : N) : list N :=
  (if v <? 128 then [v]
   else if v <? 2048 then [192 + v / 64; 128 + v mod 64]
   else if v <? 65536 then [224 + v / 4096; 128 + (v / 64) mod 64; 128 + v mod 64]
   else [240 + v / 262144; 128 + (v / 4096) mod 64; 128 + (v / 64) mod 64;
         128 + v mod 64])%N.

Definition hex_digit (n : N) : N := (if n <? 10 then 48 + n else 55 + n)%N.

(** The bytes the serialiser leaves as they are: ASCII letters and digits
    and [*-._]. *)
Definition unreserved (b : N) : bool :=
  (((97 <=? b) && (b <=? 122)) || ((65 <=? b) && (b <=? 90))
   || ((48 <=? b) && (b <=? 57))
   || (b =? 42) || (b =? 45) || (b =? 46) || (b =? 95))%N.

(** A space becomes [+]; every other byte that is not left as it is, is
    percent-encoded with upper-case hexadecimal digits. *)
Definition encode_byte (b : N) : jsstring :=
  (if b =? 32 then [43]
   else if unreserved b then [b]
   else [37; hex_digit (b / 16); hex_digit (b mod 16)])%N.

Definition encode (s : jsstring) : jsstring :=
  flat_map encode_byte (flat_map utf8 (scalar_values s)).

Definition toString (l : t) : jsstring :=
  join (lit "&") (map (fun p => encode (fst p) ++ lit "=" ++ encode (snd p)) l).

End URLSearchParams.

Module Backend.

(** [fetch] of a backend URL whose JSON answer is declared of type [T]. *)
Variant BackendE (T : Type) : Type -> Type :=
| Fetch (url : jsstring) : BackendE T (FetchResult T).
Arguments Fetch {T} url.

Definition BACKEND_URL (proc : Process) : jsstring :=
  match NEXT_PUBLIC_BACKEND_URL proc with
  | Some u => u
  | None => lit "http://localhost:8000"
  end.

Definition backend {T} (proc : Process) (path : jsstring) : Prog (BackendE T) T :=
  res <- await (Fetch (BACKEND_URL proc ++ path)) ;;
  if negb (ok res) then Throw (Error (lit "Backend " ++ String_of_int (status res)))
  else res_json res.

Definition handle {T} (net : jsstring -> FetchResult T)
    X (ev : BackendE T X) (s : unit) : unit * list jsstring * X :=
  match ev in BackendE _ X return unit * list jsstring * X with
  | Fetch url => (s, [url], net url)
  end.

End Backend.

Module HistoryLoader.

Record ChatResponse : Type := {
  message_id : jsstring;
  user_message : jsstring;
  agent_response : jsstring;
  timestamp : jsstring
}.

Record ChatHistoryResponse : Type := {
  messages : list ChatResponse;
  total : Z
}.

(** The query parameters [params] that [loadChatHistory] builds; a missing
    [limit] takes the default 50.  [limit] is an integer-valued number. *)
Definition params (strategyId : option jsstring) (limit : option Z) : URLSearchParams.t :=
  let limit := match limit with Some l => l | None => 50%Z end in
  let params := [] in
  let params :=
    match strategyId with
    | Some sid => if truthy sid then URLSearchParams.set (lit "strategy_id") sid params
                  else params
    | None => params
    end in
  URLSearchParams.set (lit "limit") (String_of_int limit) params.

Definition loadChatHistory (proc : Process) (strategyId : option jsstring) (limit : option Z)
    : Prog (Backend.BackendE ChatHistoryResponse) ChatHistoryResponse :=
  Backend.backend proc
    (lit "/api/chat/history?" ++ URLSearchParams.toString (params strategyId limit)).

(** The URLs requested by one call, and its outcome. *)
Definition run (net : jsstring -> FetchResult ChatHistoryResponse)
    (proc : Process) (strategyId : option jsstring) (limit : option Z)
    : list jsstring * (Exn + ChatHistoryResponse) :=
  let '(_, urls, r) := interp (Backend.handle net) (loadChatHistory proc strategyId limit) tt in
  (urls, r).

End HistoryLoader.

(* ===================================================================== *)
(** ** components/chat/chat-pane.tsx: the chat session controller *)
(* ===================================================================== *)

Module ChatPane.

(** The [useState] cells of the component. *)
Record State : Type := {
  strategyId : option jsstring;
  walletIds : option (list jsstring);
  files : list File;
  messages : list ChatMessage;
  input : jsstring;
  typing : bool
}.

(** What a handler does to its surroundings.  A state setter takes the
    updater (or the constant updater of a plain value); the two fetches are
    the ones to [/api/files] and [/api/chat]. *)
Variant ClientE : Type -> Type :=
| PreventDefault : ClientE unit
| RandomUUID : ClientE jsstring
| SetFiles (v : list File) : ClientE unit
| SetMessages (f : list ChatMessage -> list ChatMessage) : ClientE unit
| SetInput (f : jsstring -> jsstring) : ClientE unit
| SetTyping (v : bool) : ClientE unit
| ToastError (msg : jsstring) : ClientE unit
| ToastSuccess (msg : jsstring) : ClientE unit
| FetchFiles (form : list File) : ClientE (FetchResult (list jsstring))
| FetchChat (body : Body.t) : ClientE (FetchResult ChatMessage).

(** [onFilesChanged], on the picked files [Array.from(e.target.files ?? [])]. *)
Definition onFilesChanged (picked : list File) : Prog ClientE unit :=
  if (List.length picked =? 0)%nat then Ret tt else
  trigger (SetFiles picked) ;;
  let form := picked in
  res <- await (FetchFiles form) ;;
  if negb (ok res) then trigger (ToastError (lit "Upload failed")) else
  urls <- res_json res ;;
  if negb (List.length urls =? 0)%nat then
    let joined := join [newline] (map (fun u => lit "Attachment: " ++ u) urls) in
    trigger (SetInput (fun prev =>
      if truthy prev then prev ++ [newline; newline] ++ joined else joined)) ;;
    trigger (ToastSuccess (lit "Files attached"))
  else Ret tt.

(** The object [{ messages, strategyId, walletIds, message: text }] that
    [sendMessage] posts; [view] holds the values of the render the handler
    was created in, which is what its free variables [input], [messages],
    [strategyId] and [walletIds] denote. *)
Definition chat_body (view : State) (text : jsstring) : Body.t :=
  {| Body.messages := Some (messages view);
     Body.strategyId := strategyId view;
     Body.walletIds := walletIds view;
     Body.message := Some text |}.

Definition sendMessage (view : State) : Prog ClientE unit :=
  trigger PreventDefault ;;
  let text := trim (input view) in
  if negb (truthy text) then Ret tt else
  uuid <- trigger RandomUUID ;;
  let userMsg := {| id := uuid; role := user; content := text |} in
  trigger (SetMessages (fun prev => prev ++ [userMsg])) ;;
  trigger (SetInput (fun _ => [])) ;;
  trigger (SetTyping true) ;;
  try_finally
    (try_catch
       (res <- await (FetchChat (chat_body view text)) ;;
        if negb (ok res)
        then Throw (Error (lit "Chat " ++ String_of_int (status res)))
        else
          data <- res_json res ;;
          trigger (SetMessages (fun prev => prev ++ [data])))
       (fun err => trigger (ToastError (lit "Chat error"))))
    (trigger (SetTyping false) ;;
     trigger (SetFiles [])).

(** What the user and the network see of a handler. *)
Inductive Obs : Type :=
| DefaultPrevented
| ErrorToast (msg : jsstring)
| SuccessToast (msg : jsstring)
| FilesRequest (form : list File)
| ChatRequest (body : Body.t).

(** The surroundings of one handler run. *)
Record World : Type := {
  randomUUID : jsstring;
  api_files : list File -> FetchResult (list jsstring);
  api_chat : Body.t -> FetchResult ChatMessage
}.

Definition with_files (v : list File) (s : State) : State :=
  {| strategyId := strategyId s; walletIds := walletIds s; files := v;
     messages := messages s; input := input s; typing := typing s |}.

Definition with_messages (v : list ChatMessage) (s : State) : State :=
  {| strategyId := strategyId s; walletIds := walletIds s; files := files s;
     messages := v; input := input s; typing := typing s |}.

Definition with_input (v : jsstring) (s : State) : State :=
  {| strategyId := strategyId s; walletIds := walletIds s; files := files s;
     messages := messages s; input := v; typing := typing s |}.

Definition with_typing (v : bool) (s : State) : State :=
  {| strategyId := strategyId s; walletIds := walletIds s; files := files s;
     messages := messages s; input := input s; typing := v |}.

Definition handle (w : World) X (ev : ClientE X) (s : State) : State * list Obs * X :=
  match ev in ClientE X return State * list Obs * X with
  | PreventDefault => (s, [DefaultPrevented], tt)
  | RandomUUID => (s, [], randomUUID w)
  | SetFiles v => (with_files v s, [], tt)
  | SetMessages f => (with_messages (f (messages s)) s, [], tt)
  | SetInput f => (with_input (f (input s)) s, [], tt)
  | SetTyping v => (with_typing v s, [], tt)
  | ToastError msg => (s, [ErrorToast msg], tt)
  | ToastSuccess msg => (s, [SuccessToast msg], tt)
  | FetchFiles form => (s, [FilesRequest form], api_files w form)
  | FetchChat body => (s, [ChatRequest body], api_chat w body)
  end.

(** The part of [handle] that needs no network answer. *)
Definition handle_sync (w : World) X (ev : ClientE X) (s : State)
    : option (State * list Obs * X) :=
  match ev in ClientE X return option (State * list Obs * X) with
  | FetchFiles _ => None
  | FetchChat _ => None
  | ev' => Some (handle w _ ev' s)
  end.

(** The states of the controller. *)
Inductive Phase : Type := Idle | AwaitingAttachmentUpload | AwaitingAgentReply.

Definition phase_of {A} (st : Suspended (E := ClientE) A) : Phase :=
  match st with
  | Settled _ => Idle
  | Awaiting ev _ =>
      match ev with
      | FetchFiles _ => AwaitingAttachmentUpload
      | FetchChat _ => AwaitingAgentReply
      | _ => Idle
      end
  end.

(** The request a suspended handler is waiting on. *)
Definition pending {A} (st : Suspended (E := ClientE) A) : option Obs :=
  match st with
  | Settled _ => None
  | Awaiting ev _ =>
      match ev with
      | FetchFiles form => Some (FilesRequest form)
      | FetchChat body => Some (ChatRequest body)
      | _ => None
      end
  end.

(** A submission of the form, in the state [s] the pane shows: up to the
    point where the handler waits for the relay, and to its end. *)
Definition submit_begin (w : World) (s : State) : State * list Obs * Suspended unit :=
  interp_sync (handle_sync w) (sendMessage s) s.

Definition submit (w : World) (s : State) : State * list Obs * (Exn + unit) :=
  interp (handle w) (sendMessage s) s.

(** A file selection, likewise. *)
Definition select_begin (w : World) (picked : list File) (s : State)
    : State * list Obs * Suspended unit :=
  interp_sync (handle_sync w) (onFilesChanged picked) s.

Definition select (w : World) (picked : list File) (s : State)
    : State * list Obs * (Exn + unit) :=
  interp (handle w) (onFilesChanged picked) s.

(** The events of a session in which every handler has come to its end
    before the next event: typing into the input ([onChange]), the emoji
    buttons, a file selection and a submission, each with the surroundings
    that answer it.  Sessions in which a handler starts while another waits
    for its answer are those of [Overlap] below. *)
Inductive UiEvent : Type :=
| Change (value : jsstring)
| Emoji (e : jsstring)
| FilesSelected (picked : list File) (w : World)
| InputSubmitted (w : World).

Definition dispatch (ev : UiEvent) (s : State) : State * list Obs :=
  match ev with
  | Change value => (with_input value s, [])
  | Emoji e => (with_input (or_else (input s) [] ++ e) s, [])
  | FilesSelected picked w => fst (select w picked s)
  | InputSubmitted w => fst (submit w s)
  end.

Fixpoint session (evs : list UiEvent) (s : State) : State * list Obs :=
  match evs with
  | [] => (s, [])
  | ev :: rest =>
      let '(s1, t1) := dispatch ev s in
      let '(s2, t2) := session rest s1 in
      (s2, t1 ++ t2)
  end.

(** The initial state of the component. *)
Definition initial : State :=
  {| strategyId := None; walletIds := None; files := []; messages := [];
     input := []; typing := false |}.

End ChatPane.

(* ===================================================================== *)
(** ** Sessions with overlapping handlers *)
(* ===================================================================== *)

(** The pane is driven by an event loop: a handler runs until it awaits its
    request, other events are handled while it waits, and it goes on when
    its answer arrives.  Every event finds the pane rendered with its
    current state, and the handler it starts closes over that state.  The
    file input is never disabled, so a selection can start while a reply or
    another upload is pending.  The only submit button of the form is
    disabled while [typing] ([disabled={typing}]): neither a click nor the
    Enter key in the input submits the form then, so no submission starts
    while a reply is pending. *)
Module Overlap.

Import ChatPane.

(** A handler waiting for the answer to its request: what it does with the
    answer. *)
Inductive Waiting : Type :=
| ForFiles (k : FetchResult (list jsstring) -> Prog ClientE unit)
| ForChat (k : FetchResult ChatMessage -> Prog ClientE unit).

(** The pane between two events: its state, how many identifiers were
    generated, and the handlers that wait, the oldest first. *)
Record Pane : Type := {
  now : State;
  drawn : nat;
  waiting : list Waiting
}.

Definition start (s : State) : Pane := {| now := s; drawn := 0; waiting := [] |}.

(** What a handler does without waiting; [uuids] gives the identifiers that
    [crypto.randomUUID()] returns, in order. *)
Definition local (uuids : nat -> jsstring) X (ev : ClientE X) (c : State * nat)
    : option (State * nat * list Obs * X) :=
  match ev in ClientE X return option (State * nat * list Obs * X) with
  | PreventDefault => Some (c, [DefaultPrevented], tt)
  | RandomUUID => Some ((fst c, S (snd c)), [], uuids (snd c))
  | SetFiles v => Some ((with_files v (fst c), snd c), [], tt)
  | SetMessages f => Some ((with_messages (f (messages (fst c))) (fst c), snd c), [], tt)
  | SetInput f => Some ((with_input (f (input (fst c))) (fst c), snd c), [], tt)
  | SetTyping v => Some ((with_typing v (fst c), snd c), [], tt)
  | ToastError msg => Some (c, [ErrorToast msg], tt)
  | ToastSuccess msg => Some (c, [SuccessToast msg], tt)
  | FetchFiles _ => None
  | FetchChat _ => None
  end.

(** A handler that stops at a request has sent it and waits. *)
Definition park (st : Suspended (E := ClientE) unit) : list Obs * list Waiting :=
  match st with
  | Settled _ => ([], [])
  | Awaiting ev k =>
      match ev in ClientE X return (X -> Prog ClientE unit) -> list Obs * list Waiting with
      | FetchFiles form => fun k => ([FilesRequest form], [ForFiles k])
      | FetchChat body => fun k => ([ChatRequest body], [ForChat k])
      | _ => fun _ => ([], [])
      end k
  end.

(** Running a handler, or the rest of one, until it waits or ends; [others]
    are the handlers that keep waiting. *)
Definition advance (uuids : nat -> jsstring) (p : Prog ClientE unit)
    (pane : Pane) (others : list Waiting) : Pane * list Obs :=
  let '(c, seen, st) := interp_sync (local uuids) p (now pane, drawn pane) in
  let '(sent, parked) := park st in
  ({| now := fst c; drawn := snd c; waiting := others ++ parked |}, seen ++ sent).

(** The events: those of the user, and the arrival of the answer to the
    request of the [i]-th waiting handler. *)
Inductive Event : Type :=
| Typed (value : jsstring)
| EmojiPicked (e : jsstring)
| FilesPicked (picked : list File)
| Submitted
| FilesAnswer (i : nat) (answer : FetchResult (list jsstring))
| ChatAnswer (i : nat) (answer : FetchResult ChatMessage).

Definition without (i : nat) (l : list Waiting) : list Waiting :=
  firstn i l ++ skipn (S i) l.

Definition step (uuids : nat -> jsstring) (ev : Event) (pane : Pane) : Pane * list Obs :=
  match ev with
  | Typed value =>
      ({| now := with_input value (now pane); drawn := drawn pane;
          waiting := waiting pane |}, [])
  | EmojiPicked e =>
      ({| now := with_input (or_else (input (now pane)) [] ++ e) (now pane);
          drawn := drawn pane; waiting := waiting pane |}, [])
  | FilesPicked picked => advance uuids (onFilesChanged picked) pane (waiting pane)
  | Submitted =>
      if typing (now pane) then (pane, [])
      else advance uuids (sendMessage (now pane)) pane (waiting pane)
  | FilesAnswer i answer =>
      match nth_error (waiting pane) i with
      | Some (ForFiles k) => advance uuids (k answer) pane (without i (waiting pane))
      | _ => (pane, [])
      end
  | ChatAnswer i answer =>
      match nth_error (waiting pane) i with
      | Some (ForChat k) => advance uuids (k answer) pane (without i (waiting pane))
      | _ => (pane, [])
      end
  end.

Fixpoint run (uuids : nat -> jsstring) (evs : list Event) (pane : Pane)
    : Pane * list Obs :=
  match evs with
  | [] => (pane, [])
  | ev :: rest =>
      let '(p1, t1) := step uuids ev pane in
      let '(p2, t2) := run uuids rest p1 in
      (p2, t1 ++ t2)
  end.

End Overlap.

(* ===================================================================== *)
(** ** The pane wired to the two route handlers *)
(* ===================================================================== *)

(** Next.js turns what a route handler returns into the HTTP response and
    answers with status 500 when the handler throws.  [stringify] stands for
    [JSON.stringify], which gives the body text. *)
Module Wired.

Definition served {T} (stringify : Json -> jsstring) (decode : Json -> option T)
    (r : Exn + NextResponse) : FetchResult T :=
  match r with
  | inr resp =>
      Resolved {| status := init_status resp;
                  text := stringify (payload resp);
                  json := decode (payload resp) |}
  | inl _ => Resolved {| status := 500; text := []; json := None |}
  end.

(** [as { message: ChatMessage }] and [as { urls: string[] }]. *)
Definition as_message (j : Json) : option ChatMessage :=
  match j with JMessage m => Some m | _ => None end.

Definition as_urls (j : Json) : option (list jsstring) :=
  match j with JUrls u => Some u | _ => None end.

Definition api_chat (stringify : Json -> jsstring)
    (agent : jsstring -> Agent.request -> FetchResult Agent.answer)
    (proc : Process) (body : Body.t) : FetchResult ChatMessage :=
  served stringify as_message (snd (ChatRoute.run agent proc body)).

Definition api_files (stringify : Json -> jsstring)
    (fw : FilesRoute.World) (proc : Process) (st : FilesRoute.Storage)
    (form : list File) : FetchResult (list jsstring) :=
  served stringify as_urls (snd (FilesRoute.run fw proc form st)).

End Wired.

(* ===================================================================== *)
(** ** app/wallets/page.tsx and app/strategies/page.tsx: the forms *)
(* ===================================================================== *)

Module WalletsPage.

(** The [form] state of the page. *)
Record Form : Type := {
  address : jsstring;
  chain : jsstring;
  label : jsstring;
  tokens : jsstring
}.

(** The object that [createMut] posts to [/api/wallets]. *)
Record NewWallet : Type := {
  new_address : jsstring;
  new_chain : jsstring;
  new_label : option jsstring;
  new_tokens : list jsstring
}.

(** [form.tokens.split(",").map(t => t.trim()).filter(Boolean)]. *)
Definition token_list (tokens : jsstring) : list jsstring :=
  filter truthy (map trim (JsText.split JsText.comma tokens)).

Definition new_wallet (form : Form) : NewWallet :=
  {| new_address := address form;
     new_chain := chain form;
     new_label := if truthy (label form) then Some (label form) else None;
     new_tokens := token_list (tokens form) |}.

(** The initial form. *)
Definition initial : Form :=
  {| address := []; chain := lit "ethereum"; label := [];
     tokens := lit "BTC,ETH,USDC" |}.

End WalletsPage.

Module StrategiesPage.

(** [selectedWallets.includes(id)]. *)
Definition includes (id : jsstring) (selectedWallets : list jsstring) : bool :=
  existsb (fun x => JsText.eqb x id) selectedWallets.

(** The updater of a wallet check box:
    [checked ? [...prev.selectedWallets, w.id]
             : prev.selectedWallets.filter(id => id !== w.id)]. *)
Definition onChange (checked : bool) (w_id : jsstring) (selectedWallets : list jsstring)
    : list jsstring :=
  if checked then selectedWallets ++ [w_id]
  else filter (fun id => negb (JsText.eqb id w_id)) selectedWallets.

End StrategiesPage.

(* ===================================================================== *)
(** ** Scenarios *)
(* ===================================================================== *)

(** The concrete surroundings the statements below are tried on. *)
Module Scenario.

Import ChatPane.

Definition proc : Process :=
  {| NEXT_PUBLIC_BACKEND_URL := None; cwd := lit "/srv/web" |}.

(** The pane with "Rebalance my portfolio" typed in and an empty log. *)
Definition typed : State := with_input (lit "Rebalance my portfolio") initial.

(** The pane with a blank input. *)
Definition blank : State := with_input (lit "   ") initial.

Definition a_png : File := {| name := lit "a.png"; bytes := [137; 80; 78; 71]%N |}.
Definition b_png : File := {| name := lit "b.png"; bytes := [137; 80; 78; 71]%N |}.

(** A relay and a [/api/files] that both answer 500 (the pane reads neither
    body). *)
Definition failing : World :=
  {| randomUUID := lit "3b241101-e2bb-4255-8caf-4136c566a962";
     api_files := fun _ => Resolved {| status := 500; text := []; json := None |};
     api_chat := fun _ =>
       Resolved {| status := 500; text := []; json := None |} |}.

(** An agent backend that answers 500 with an empty body, one that answers
    500 with the text "LLM timeout", and one that answers. *)
Definition agent_silent (url : jsstring) (req : Agent.request)
    : FetchResult Agent.answer :=
  Resolved {| status := 500; text := []; json := None |}.

Definition agent_timeout (url : jsstring) (req : Agent.request)
    : FetchResult Agent.answer :=
  Resolved {| status := 500; text := lit "LLM timeout"; json := None |}.

Definition agent_well (url : jsstring) (req : Agent.request)
    : FetchResult Agent.answer :=
  Resolved {| status := 200; text := [];
              json := Some {| Agent.message_id := lit "m-1";
                              Agent.agent_response := lit "Done" |} |}.

(** The first request of a session: an empty history and the typed text. *)
Definition first_turn : Body.t :=
  {| Body.messages := Some []; Body.strategyId := None; Body.walletIds := None;
     Body.message := Some (lit "Rebalance my portfolio") |}.

(** A server whose file system works, with a clock that advances by one
    millisecond per reading. *)
Definition healthy : FilesRoute.World :=
  {| FilesRoute.clock := fun k => (1670000000000 + Z.of_nat k)%Z;
     FilesRoute.mkdir_ok := true;
     FilesRoute.write_ok := fun _ => true |}.

Definition empty_disk : FilesRoute.Storage :=
  {| FilesRoute.readings := 0; FilesRoute.writes := 0; FilesRoute.disk := [] |}.

(** The pane never reads the body text of a response; the scenarios leave
    it empty. *)
Definition body_text (j : Json) : jsstring := [].

(** An agent backend that answers with the very utterance it was sent, and
    the pane in front of the relay in front of that agent. *)
Definition agent_echo (url : jsstring) (req : Agent.request)
    : FetchResult Agent.answer :=
  Resolved {| status := 200; text := [];
              json := Some {| Agent.message_id := lit "m-1";
                              Agent.agent_response := Agent.message req |} |}.

Definition echoing (uuid : jsstring) : World :=
  {| randomUUID := uuid;
     api_files := fun _ => Rejected;
     api_chat := Wired.api_chat body_text agent_echo proc |}.

(** Two turns of a session: type, submit, type, submit. *)
Definition two_turns : list UiEvent :=
  [Change (lit "Rebalance my portfolio"); InputSubmitted (echoing (lit "u-1"));
   Change (lit "Sell half of it"); InputSubmitted (echoing (lit "u-2"))].


End Scenario.

(** Further surroundings: a relay that answers, in front of a pane whose
    input has white space around the text, and an unreachable
    [/api/files]. *)
Module Cases.

Import ChatPane.

Definition padded : State := with_input (lit "  Rebalance my portfolio  ") initial.

Definition reply : ChatMessage :=
  {| id := lit "m-1"; role := assistant; content := lit "Done" |}.

Definition answering : World :=
  {| randomUUID := lit "u-1";
     api_files := fun _ => Rejected;
     api_chat := fun _ => Resolved {| status := 200; text := []; json := Some reply |} |}.

(** A server whose second write fails. *)
Definition flaky : FilesRoute.World :=
  {| FilesRoute.clock := fun k => (1670000000000 + Z.of_nat k)%Z;
     FilesRoute.mkdir_ok := true;
     FilesRoute.write_ok := fun k => (k =? 0)%nat |}.

(** The pane in front of that server. *)
Definition unlucky : World :=
  {| randomUUID := lit "u-1";
     api_files := Wired.api_files Scenario.body_text flaky Scenario.proc
                    Scenario.empty_disk;
     api_chat := fun _ => Rejected |}.

(** An overlapped session: the text is submitted, a file is picked while
    the reply is awaited, the reply arrives, and then the upload is
    refused. *)
Definition uuids (k : nat) : jsstring := lit "u-" ++ String_of_int (Z.of_nat k).

Definition refused : FetchResult (list jsstring) :=
  Resolved {| status := 500; text := []; json := None |}.

Definition replied : FetchResult ChatMessage :=
  Resolved {| status := 200; text := []; json := Some reply |}.

Definition overlapped : list Overlap.Event :=
  [Overlap.Submitted; Overlap.FilesPicked [Scenario.a_png];
   Overlap.ChatAnswer 0 replied; Overlap.FilesAnswer 0 refused].

End Cases.

(** A path directly inside a directory: the directory, a slash and one
    segment that holds no slash and is neither [.] nor [..]. *)
Definition inside (dir path : jsstring) : Prop :=
  exists seg,
    path = dir ++ lit "/" ++ seg
    /\ forallb (fun c => negb (c =? 47)%N) seg = true
    /\ seg <> lit "." /\ seg <> lit "..".

(** The file that the [k]-th clock reading stamps, as the endpoint stores
    it under [dir]: its path and its bytes. *)
Definition stored (fw : FilesRoute.World) (dir : jsstring) (kf : nat * File)
    : jsstring * list N :=
  (FilesRoute.path_join [dir; FilesRoute.safeName (FilesRoute.clock fw (fst kf)) (snd kf)],
   bytes (snd kf)).

(** A segment without a slash, and a plain segment: not empty, neither [.]
    nor [..], and without a slash. *)
Definition no_slash (seg : jsstring) : bool :=
  forallb (fun c => negb (c =? Path.slash)%N) seg.

Definition plain (seg : jsstring) : bool :=
  negb (JsText.eqb seg []) && negb (JsText.eqb seg Path.dot)
  && negb (JsText.eqb seg Path.dotdot) && no_slash seg.

(** The segments that [normalizeString] keeps, the last one first: plain
    segments on top of [..] segments, which are there only when the path
    may climb above its start. *)
Fixpoint settled (allowAboveRoot : bool) (res : list jsstring) : bool :=
  match res with
  | [] => true
  | top :: below =>
      if JsText.eqb top Path.dotdot
      then allowAboveRoot && forallb (JsText.eqb Path.dotdot) below
      else plain top && settled allowAboveRoot below
  end.

(** A normalised path of at least one segment and without a trailing
    slash. *)
Definition normal_dir (dir : jsstring) : Prop :=
  exists (isAbsolute : bool) (res : list jsstring),
    res <> []
    /\ settled (negb isAbsolute) res = true
    /\ dir = (if isAbsolute then [Path.slash] else []) ++ join [Path.slash] (rev res).

(** Writing files one after the other. *)
Definition write_all (files : list (jsstring * list N)) (disk : FilesRoute.Disk)
    : FilesRoute.Disk :=
  fold_left (fun d e => FilesRoute.write (fst e) (snd e) d) files disk.

(** The code units of the decimal digits. *)
Definition digit (c : N) : bool := ((48 <=? c) && (c <=? 57))%N.

(** The code units a serialised query is made of: the bytes left as they
    are, the plus sign of a space and the percent sign of an escape. *)
Definition query_safe (c : N) : bool :=
  URLSearchParams.unreserved c || (c =? 43)%N || (c =? 37)%N.

(** A string as JavaScript has it: every code unit is below 2^16. *)
Definition well_formed (s : jsstring) : bool :=
  forallb (fun c => (c <? 65536)%N) s.

(** Counting in a session: the requests to the relay among what was
    observed, and the submissions among the events. *)
Definition is_chat_request (o : ChatPane.Obs) : bool :=
  match o with ChatPane.ChatRequest _ => true | _ => false end.

Definition chat_requests (seen : list ChatPane.Obs) : nat :=
  List.length (filter is_chat_request seen).




(** What the rest of a handler of the pane does once its answer is there,
    whatever the answer and the state it finds: it comes to its end without
    another request; the rest of an upload leaves the log and [typing] as
    they are, the rest of a submission appends at most one message and
    resets [typing]. *)
Definition tame (uuids : nat -> jsstring) (wt : Overlap.Waiting) : Prop :=
  match wt with
  | Overlap.ForFiles k =>
      forall answer c, exists c' seen r,
        interp_sync (Overlap.local uuids) (k answer) c = (c', seen, Settled r)
        /\ ChatPane.messages (fst c') = ChatPane.messages (fst c)
        /\ ChatPane.typing (fst c') = ChatPane.typing (fst c)
        /\ chat_requests seen = 0
  | Overlap.ForChat k =>
      forall answer c, exists c' seen r added,
        interp_sync (Overlap.local uuids) (k answer) c = (c', seen, Settled r)
        /\ ChatPane.messages (fst c') = ChatPane.messages (fst c) ++ added
        /\ List.length added <= 1
        /\ ChatPane.typing (fst c') = false
        /\ chat_requests seen = 0
  end.


(* ===================================================================== *)
(** * Properties *)
(* ===================================================================== *)

(** ** Strings *)

Lemma trimStart_blank (s : jsstring) :
  forallb isWhiteSpace s = true -> trimStart s = [].
Proof.
  induction s as [| c r IH]; simpl; [reflexivity |].
  intros H. apply andb_true_iff in H as [Hc Hr]. rewrite Hc. auto.
Qed.

Lemma trimStart_nil_blank (s : jsstring) :
  trimStart s = [] -> forallb isWhiteSpace s = true.
Proof.
  induction s as [| c r IH]; simpl; [reflexivity |].
  destruct (isWhiteSpace c); simpl; [exact IH | discriminate].
Qed.

Lemma forallb_rev {A} (f : A -> bool) (l : list A) :
  forallb f (rev l) = forallb f l.
Proof.
  induction l as [| a l IH]; simpl; [reflexivity |].
  rewrite forallb_app, IH. simpl. rewrite andb_true_r. apply andb_comm.
Qed.

Lemma trimStart_idem (s : jsstring) : trimStart (trimStart s) = trimStart s.
Proof.
  induction s as [| c r IH]; simpl; [reflexivity |].
  destruct (isWhiteSpace c) eqn:Hc; [exact IH |]. simpl. now rewrite Hc.
Qed.

(** [trim] leaves nothing exactly of the texts made of white space only. *)
Lemma trim_nil_iff (s : jsstring) :
  trim s = [] <-> forallb isWhiteSpace s = true.
Proof.
  unfold trim, trimEnd. split.
  - intros H. apply trimStart_nil_blank.
    apply (f_equal (@rev N)) in H. rewrite rev_involutive in H. simpl in H.
    apply trimStart_nil_blank in H. rewrite forallb_rev in H.
    rewrite <- trimStart_idem. now apply trimStart_blank.
  - intros H. now rewrite (trimStart_blank s H).
Qed.

Lemma truthy_cons_iff (s : jsstring) : truthy s = true <-> s <> [].
Proof. destruct s; simpl; split; congruence. Qed.

(** ** Programs *)

(** Running to the end is running to the first wait and resuming there. *)
Lemma interp_resume {E : Type -> Type} {S O A : Type}
    (h : forall X, E X -> S -> S * list O * X)
    (hs : forall X, E X -> S -> option (S * list O * X))
    (agree : forall X (ev : E X) s r, hs X ev s = Some r -> h X ev s = r)
    (p : Prog E A) (s : S) :
  interp h p s = resume h (interp_sync hs p s).
Proof.
  revert s. induction p as [a | e | X ev k IH]; intros s; simpl; try reflexivity.
  destruct (hs X ev s) as [[[s1 o] x] |] eqn:Hs; [| reflexivity].
  rewrite (agree _ _ _ _ Hs), IH.
  destruct (interp_sync hs (k x) s1) as [[s2 t] [r | Y ev' k']]; simpl.
  - reflexivity.
  - destruct (h Y ev' s2) as [[s3 o'] y].
    destruct (interp h (k' y) s3) as [[s4 t4] r].
    now rewrite app_assoc.
Qed.

(** The synchronous part depends on the synchronous handler only. *)
Lemma interp_sync_ext {E : Type -> Type} {S O A : Type}
    (hs hs' : forall X, E X -> S -> option (S * list O * X))
    (same : forall X (ev : E X) s, hs X ev s = hs' X ev s)
    (p : Prog E A) (s : S) :
  interp_sync hs p s = interp_sync hs' p s.
Proof.
  revert s. induction p as [a | e | X ev k IH]; intros s; simpl; try reflexivity.
  rewrite same. destruct (hs' X ev s) as [[[s1 o] x] |]; [| reflexivity].
  now rewrite IH.
Qed.

(** Of the surroundings, the synchronous part of a handler of the pane sees
    the generated identifier only, not the network. *)
Lemma handle_sync_uuid (w w' : ChatPane.World) X (ev : ChatPane.ClientE X) s :
  ChatPane.randomUUID w' = ChatPane.randomUUID w ->
  ChatPane.handle_sync w' X ev s = ChatPane.handle_sync w X ev s.
Proof. intros Hu. destruct ev; simpl; try reflexivity. now rewrite Hu. Qed.

Lemma handle_sync_agrees (w : ChatPane.World) X (ev : ChatPane.ClientE X) s r :
  ChatPane.handle_sync w X ev s = Some r -> ChatPane.handle w X ev s = r.
Proof. destruct ev; simpl; congruence. Qed.

(** A submission run to its end is its synchronous part followed by the
    rest of the handler on the relay's answer. *)
Lemma submit_resume (w : ChatPane.World) (s : ChatPane.State) :
  ChatPane.submit w s = resume (ChatPane.handle w) (ChatPane.submit_begin w s).
Proof. apply interp_resume, handle_sync_agrees. Qed.

Lemma select_resume (w : ChatPane.World) picked (s : ChatPane.State) :
  ChatPane.select w picked s
  = resume (ChatPane.handle w) (ChatPane.select_begin w picked s).
Proof. apply interp_resume, handle_sync_agrees. Qed.

(** ** The chat session controller *)

Section Controller.

Import ChatPane.

Variable w : World.
Variable s : State.

(** The user message of a submission in state [s]. *)
Local Abbreviation text := (trim (input s)).
Local Abbreviation userMsg := {| id := randomUUID w; role := user; content := text |}.

(** Up to the wait for the relay, a submission of a text that is not blank
    appends the user message, empties the input and raises [typing]. *)
Lemma submit_begin_text :
  text <> [] ->
  exists k,
    submit_begin w s
    = (with_typing true (with_input [] (with_messages (messages s ++ [userMsg]) s)),
       [DefaultPrevented],
       Awaiting (FetchChat (chat_body s text)) k).
Proof.
  intros Hne. unfold submit_begin, sendMessage.
  destruct text as [| c r]; [congruence |].
  simpl. eexists. reflexivity.
Qed.

(** A blank input stops the handler at once. *)
Lemma sendMessage_blank :
  text = [] -> sendMessage s = (trigger PreventDefault ;; Ret tt).
Proof.
  intros Ht. unfold sendMessage. rewrite Ht. reflexivity.
Qed.

(** The whole submission, by the answer of the relay. *)
Lemma submit_failed :
  text <> [] ->
  failed (api_chat w (chat_body s text)) = true ->
  submit w s
  = (with_files [] (with_typing false
       (with_typing true (with_input [] (with_messages (messages s ++ [userMsg]) s)))),
     [DefaultPrevented; ChatRequest (chat_body s text); ErrorToast (lit "Chat error")],
     inr tt).
Proof.
  intros Hne Hf. unfold submit, sendMessage.
  destruct text as [| c r]; [congruence |].
  simpl.
  destruct (api_chat w (chat_body s (c :: r))) as [| res]; simpl in *.
  - reflexivity.
  - rewrite Hf. simpl. reflexivity.
Qed.

Lemma submit_answered (res : Response ChatMessage) (m : ChatMessage) :
  text <> [] ->
  api_chat w (chat_body s text) = Resolved res ->
  ok res = true ->
  json res = Some m ->
  submit w s
  = (with_files [] (with_typing false
       (with_messages (messages s ++ [userMsg] ++ [m])
          (with_typing true (with_input [] (with_messages (messages s ++ [userMsg]) s))))),
     [DefaultPrevented; ChatRequest (chat_body s text)],
     inr tt).
Proof.
  intros Hne Hr Hok Hj. unfold submit, sendMessage.
  destruct text as [| c r]; [congruence |].
  simpl. rewrite Hr. unfold ok in *. simpl in *. rewrite Hok. simpl.
  unfold res_json. rewrite Hj. simpl. now rewrite <- app_assoc.
Qed.

Lemma submit_unreadable (res : Response ChatMessage) :
  text <> [] ->
  api_chat w (chat_body s text) = Resolved res ->
  ok res = true ->
  json res = None ->
  submit w s
  = (with_files [] (with_typing false
       (with_typing true (with_input [] (with_messages (messages s ++ [userMsg]) s)))),
     [DefaultPrevented; ChatRequest (chat_body s text); ErrorToast (lit "Chat error")],
     inr tt).
Proof.
  intros Hne Hr Hok Hj. unfold submit, sendMessage.
  destruct text as [| c r]; [congruence |].
  simpl. rewrite Hr. unfold ok in *. simpl in *. rewrite Hok. simpl.
  unfold res_json. rewrite Hj. reflexivity.
Qed.


(** *** File selection *)

Variable picked : list File.

Lemma select_refused (res : Response (list jsstring)) :
  picked <> [] ->
  api_files w picked = Resolved res ->
  ok res = false ->
  select w picked s
  = (with_files picked s,
     [FilesRequest picked; ErrorToast (lit "Upload failed")],
     inr tt).
Proof.
  intros Hne Hr Hok. unfold select, onFilesChanged.
  destruct picked as [| f fs] eqn:Hp; [congruence |].
  simpl. rewrite Hr. destruct res as [st tx js].
  unfold ok in *. simpl in *. rewrite Hok. reflexivity.
Qed.



End Controller.



(** ** Submission *)

(** C3: for every input that is not empty after trimming, the submission has,
    when it starts to wait for the relay, appended exactly one message of
    role user with the locally generated identifier, emptied the input
    buffer and set [typing]; it is then waiting for the agent's reply.  That
    state does not depend on what the network will answer, and the whole
    submission is this first part resumed with the relay's answer. *)
Theorem submit_appends_user_message_first (w : ChatPane.World) (s : ChatPane.State) :
  trim (ChatPane.input s) <> [] ->
  let userMsg := {| id := ChatPane.randomUUID w; role := user;
                    content := trim (ChatPane.input s) |} in
  let '(s1, seen, st) := ChatPane.submit_begin w s in
  ChatPane.messages s1 = ChatPane.messages s ++ [userMsg]
  /\ List.length (ChatPane.messages s1) = S (List.length (ChatPane.messages s))
  /\ ChatPane.input s1 = []
  /\ ChatPane.typing s1 = true
  /\ ChatPane.files s1 = ChatPane.files s
  /\ seen = [ChatPane.DefaultPrevented]
  /\ ChatPane.phase_of st = ChatPane.AwaitingAgentReply
  /\ (forall w', ChatPane.randomUUID w' = ChatPane.randomUUID w ->
                 ChatPane.submit_begin w' s = (s1, seen, st))
  /\ ChatPane.submit w s = resume (ChatPane.handle w) (s1, seen, st).
Proof.
  intros Hne userMsg.
  pose proof (submit_resume w s) as Hres.
  assert (Hext : forall w', ChatPane.randomUUID w' = ChatPane.randomUUID w ->
                            ChatPane.submit_begin w' s = ChatPane.submit_begin w s).
  { intros w' Hu. unfold ChatPane.submit_begin. apply interp_sync_ext.
    intros X ev s0. now apply handle_sync_uuid. }
  destruct (submit_begin_text w s Hne) as [k Hk]. rewrite Hk in Hres, Hext.
  rewrite Hk. simpl ChatPane.messages. simpl ChatPane.input.
  simpl ChatPane.typing. simpl ChatPane.files. simpl ChatPane.phase_of.
  repeat split; try assumption. rewrite length_app. simpl. lia.
Qed.

Lemma submit_appends_user_message_first_witness :
  let '(s1, seen, st) := ChatPane.submit_begin Scenario.failing Scenario.typed in
  ChatPane.messages s1
  = ChatPane.messages Scenario.typed
    ++ [{| id := ChatPane.randomUUID Scenario.failing; role := user;
           content := trim (ChatPane.input Scenario.typed) |}]
  /\ List.length (ChatPane.messages s1)
     = S (List.length (ChatPane.messages Scenario.typed))
  /\ ChatPane.input s1 = []
  /\ ChatPane.typing s1 = true
  /\ ChatPane.files s1 = ChatPane.files Scenario.typed
  /\ seen = [ChatPane.DefaultPrevented]
  /\ ChatPane.phase_of st = ChatPane.AwaitingAgentReply
  /\ (forall w', ChatPane.randomUUID w' = ChatPane.randomUUID Scenario.failing ->
                 ChatPane.submit_begin w' Scenario.typed = (s1, seen, st))
  /\ ChatPane.submit Scenario.failing Scenario.typed
     = resume (ChatPane.handle Scenario.failing) (s1, seen, st).
Proof.
  apply (submit_appends_user_message_first Scenario.failing Scenario.typed).
  vm_compute. discriminate.
Defined.

(** C2: for every submission of a text that is not empty after trimming,
    the [messages] field of the request to the relay is the log as it was
    before the user message was appended; the submitted text travels in the
    [message] field only, and no second request is made. *)
Theorem relay_request_holds_log_before_append (w : ChatPane.World) (s : ChatPane.State) :
  trim (ChatPane.input s) <> [] ->
  let text := trim (ChatPane.input s) in
  let userMsg := {| id := ChatPane.randomUUID w; role := user; content := text |} in
  exists body rest,
    ChatPane.pending (snd (ChatPane.submit_begin w s)) = Some (ChatPane.ChatRequest body)
    /\ snd (fst (ChatPane.submit w s))
       = ChatPane.DefaultPrevented :: ChatPane.ChatRequest body :: rest
    /\ (forall b, ~ In (ChatPane.ChatRequest b) rest)
    /\ Body.messages body = Some (ChatPane.messages s)
    /\ Body.message body = Some text
    /\ ChatPane.messages (fst (fst (ChatPane.submit_begin w s)))
       = ChatPane.messages s ++ [userMsg]
    /\ (~ In (ChatPane.randomUUID w) (map id (ChatPane.messages s)) ->
        ~ In userMsg (ChatPane.messages s)).
Proof.
  intros Hne text userMsg.
  exists (ChatPane.chat_body s text).
  destruct (submit_begin_text w s Hne) as [k Hk]. rewrite Hk. simpl.
  assert (Hrest : exists rest,
             snd (fst (ChatPane.submit w s))
             = ChatPane.DefaultPrevented
               :: ChatPane.ChatRequest (ChatPane.chat_body s text) :: rest
             /\ forall b, ~ In (ChatPane.ChatRequest b) rest).
  { destruct (ChatPane.api_chat w (ChatPane.chat_body s text)) as [| res] eqn:Hr.
    - rewrite (submit_failed w s Hne) by (fold text; now rewrite Hr).
      eexists. split; [reflexivity |]. simpl. intros b [H | []]. discriminate.
    - destruct (ok res) eqn:Hok.
      + destruct (json res) as [m |] eqn:Hj.
        * rewrite (submit_answered w s res m Hne Hr Hok Hj).
          exists []. split; [reflexivity |]. intros b [].
        * rewrite (submit_unreadable w s res Hne Hr Hok Hj).
          eexists. split; [reflexivity |]. simpl. intros b [H | []]. discriminate.
      + rewrite (submit_failed w s Hne) by (fold text; rewrite Hr; simpl; now rewrite Hok).
        eexists. split; [reflexivity |]. simpl. intros b [H | []]. discriminate. }
  destruct Hrest as [rest [Ht Hno]].
  exists rest. repeat split; try assumption.
  intros Hfresh Hin. apply Hfresh.
  change (ChatPane.randomUUID w) with (id userMsg). now apply in_map.
Qed.

Lemma relay_request_holds_log_before_append_witness :
  exists body rest,
    ChatPane.pending (snd (ChatPane.submit_begin Scenario.failing Scenario.typed))
    = Some (ChatPane.ChatRequest body)
    /\ snd (fst (ChatPane.submit Scenario.failing Scenario.typed))
       = ChatPane.DefaultPrevented :: ChatPane.ChatRequest body :: rest
    /\ (forall b, ~ In (ChatPane.ChatRequest b) rest)
    /\ Body.messages body = Some (ChatPane.messages Scenario.typed)
    /\ Body.message body = Some (trim (ChatPane.input Scenario.typed))
    /\ ChatPane.messages (fst (fst (ChatPane.submit_begin Scenario.failing Scenario.typed)))
       = ChatPane.messages Scenario.typed
         ++ [{| id := ChatPane.randomUUID Scenario.failing; role := user;
                content := trim (ChatPane.input Scenario.typed) |}]
    /\ (~ In (ChatPane.randomUUID Scenario.failing)
             (map id (ChatPane.messages Scenario.typed)) ->
        ~ In {| id := ChatPane.randomUUID Scenario.failing; role := user;
                content := trim (ChatPane.input Scenario.typed) |}
             (ChatPane.messages Scenario.typed)).
Proof.
  apply (relay_request_holds_log_before_append Scenario.failing Scenario.typed).
  vm_compute. discriminate.
Defined.

(** C5: for every relay call that fails (the transport rejects, or the
    status is not 2xx), the log grows by exactly one message, the user
    message, which stays as the last entry with no reply after it, and
    [typing] is false again; one failure notice is shown. *)
Theorem failed_relay_call_keeps_user_message (w : ChatPane.World) (s : ChatPane.State) :
  trim (ChatPane.input s) <> [] ->
  failed (ChatPane.api_chat w (ChatPane.chat_body s (trim (ChatPane.input s)))) = true ->
  let userMsg := {| id := ChatPane.randomUUID w; role := user;
                    content := trim (ChatPane.input s) |} in
  let '(s2, seen, r) := ChatPane.submit w s in
  ChatPane.messages s2 = ChatPane.messages s ++ [userMsg]
  /\ List.length (ChatPane.messages s2) = S (List.length (ChatPane.messages s))
  /\ ChatPane.typing s2 = false
  /\ seen = [ChatPane.DefaultPrevented;
             ChatPane.ChatRequest (ChatPane.chat_body s (trim (ChatPane.input s)));
             ChatPane.ErrorToast (lit "Chat error")]
  /\ r = inr tt.
Proof.
  intros Hne Hf userMsg. rewrite (submit_failed w s Hne Hf). simpl.
  repeat split. rewrite length_app. simpl. lia.
Qed.

Lemma failed_relay_call_keeps_user_message_witness :
  let '(s2, seen, r) := ChatPane.submit Scenario.failing Scenario.typed in
  ChatPane.messages s2
  = ChatPane.messages Scenario.typed
    ++ [{| id := ChatPane.randomUUID Scenario.failing; role := user;
           content := trim (ChatPane.input Scenario.typed) |}]
  /\ List.length (ChatPane.messages s2)
     = S (List.length (ChatPane.messages Scenario.typed))
  /\ ChatPane.typing s2 = false
  /\ seen = [ChatPane.DefaultPrevented;
             ChatPane.ChatRequest
               (ChatPane.chat_body Scenario.typed (trim (ChatPane.input Scenario.typed)));
             ChatPane.ErrorToast (lit "Chat error")]
  /\ r = inr tt.
Proof.
  apply (failed_relay_call_keeps_user_message Scenario.failing Scenario.typed).
  - vm_compute. discriminate.
  - vm_compute. reflexivity.
Defined.

(** C8: for every input that is empty or made of white space only, submitting
    changes nothing of the state (log, input buffer, [typing], attachment
    queue) and sends no request: the handler only cancels the form's default
    action and returns, without ever waiting. *)
Theorem blank_submission_is_noop (w : ChatPane.World) (s : ChatPane.State) :
  forallb isWhiteSpace (ChatPane.input s) = true ->
  ChatPane.submit w s = (s, [ChatPane.DefaultPrevented], inr tt)
  /\ ChatPane.submit_begin w s = (s, [ChatPane.DefaultPrevented], Settled (inr tt)).
Proof.
  intros Hb. apply trim_nil_iff in Hb.
  unfold ChatPane.submit, ChatPane.submit_begin.
  rewrite (sendMessage_blank s Hb). split; reflexivity.
Qed.

Lemma blank_submission_is_noop_witness :
  ChatPane.submit Scenario.failing Scenario.blank
  = (Scenario.blank, [ChatPane.DefaultPrevented], inr tt)
  /\ ChatPane.submit_begin Scenario.failing Scenario.blank
     = (Scenario.blank, [ChatPane.DefaultPrevented], Settled (inr tt)).
Proof.
  apply (blank_submission_is_noop Scenario.failing Scenario.blank).
  vm_compute. reflexivity.
Defined.


(** ** Attachments *)

(** C4 as stated fails: after the upload of [a.png] was answered with status
    500, the notice is there and the input is unchanged, but the attachment
    queue still holds [a.png]. *)
Lemma failed_upload_leaves_queue_filled :
  let '(s2, seen, _) := ChatPane.select Scenario.failing [Scenario.a_png] Scenario.typed in
  failed (ChatPane.api_files Scenario.failing [Scenario.a_png]) = true
  /\ In (ChatPane.ErrorToast (lit "Upload failed")) seen
  /\ ChatPane.input s2 = ChatPane.input Scenario.typed
  /\ ChatPane.files s2 = [Scenario.a_png]
  /\ ChatPane.files s2 <> [].
Proof.
  vm_compute. repeat split; try discriminate. right. left. reflexivity.
Qed.

(** ** The relay *)

(** Building a response touches neither the state nor the outside. *)
Lemma NextResponse_json_run {E : Type -> Type} {S O : Type}
    (h : forall X, E X -> S -> S * list O * X) (value : Json) (status : Z) (s : S) :
  interp h (NextResponse_json value status) s = (s, [], built value status).
Proof.
  unfold NextResponse_json, built.
  destruct (negb ((200 <=? status) && (status <=? 599))%Z); [reflexivity |].
  destruct (null_body_status status); reflexivity.
Qed.

(** The relay sends exactly one request, whatever the agent answers. *)
Lemma relay_sends_once agent (proc : Process) (body : Body.t) :
  fst (ChatRoute.run agent proc body)
  = [(ChatRoute.chat_url proc, ChatRoute.forwarded body)].
Proof.
  unfold ChatRoute.run, ChatRoute.POST. simpl.
  destruct (agent (ChatRoute.chat_url proc) (ChatRoute.forwarded body)) as [| [st tx js]];
    simpl; [reflexivity |].
  unfold ok, res_json. simpl.
  destruct ((200 <=? st) && (st <=? 299))%Z; simpl.
  - destruct js; simpl; rewrite ?NextResponse_json_run; reflexivity.
  - rewrite ?NextResponse_json_run. reflexivity.
Qed.

(** On a status that is not 2xx the relay builds the error response with
    that status. *)
Lemma relay_refused agent (proc : Process) (body : Body.t) (res : Response Agent.answer) :
  agent (ChatRoute.chat_url proc) (ChatRoute.forwarded body) = Resolved res ->
  ok res = false ->
  snd (ChatRoute.run agent proc body)
  = built (JError (if truthy (text res) then text res else lit "Chat backend error"))
      (status res).
Proof.
  intros Hr Hok. unfold ChatRoute.run, ChatRoute.POST. simpl. rewrite Hr.
  destruct res as [st tx js]. unfold ok in *. simpl in *. rewrite Hok. simpl.
  now rewrite NextResponse_json_run.
Qed.

(** A response built by a route for a status that is not 2xx, or the 500 of
    a thrown handler, is a failed call for the pane. *)
Lemma served_refusal_failed {T} (stringify : Json -> jsstring)
    (decode : Json -> option T) (value : Json) (status : Z) :
  ((200 <=? status) && (status <=? 299))%Z = false ->
  failed (Wired.served stringify decode (built value status)) = true.
Proof.
  intros Hok. unfold built.
  destruct (negb ((200 <=? status) && (status <=? 599))%Z); [reflexivity |].
  destruct (null_body_status status); [reflexivity |].
  simpl. unfold ok. simpl. now rewrite Hok.
Qed.

(** C1, on the code: the relay takes the utterance from [messages] and never
    reads [message].  For the first turn of a session, the body
    [{ messages: [], message: "Rebalance my portfolio" }] that the pane
    posts, the agent backend is sent the empty string; for every body, the
    request sent is the same whatever the [message] field holds; and through
    the pane and the relay, an agent that echoes its input answers the first
    turn with the empty string and the second turn with the text of the
    first. *)
Theorem relay_ignores_supplied_message :
  ChatPane.chat_body Scenario.typed (trim (ChatPane.input Scenario.typed))
  = Scenario.first_turn
  /\ map (fun m => (role m, content m))
       (ChatPane.messages (fst (ChatPane.session Scenario.two_turns ChatPane.initial)))
     = [(user, lit "Rebalance my portfolio"); (assistant, []);
        (user, lit "Sell half of it"); (assistant, lit "Rebalance my portfolio")]
  /\ fst (ChatRoute.run Scenario.agent_well Scenario.proc Scenario.first_turn)
     = [(lit "http://localhost:8000/api/chat",
         {| Agent.message := []; Agent.strategy_id := None; Agent.wallet_ids := None |})]
  /\ (forall agent proc messages strategyId walletIds m1 m2,
        fst (ChatRoute.run agent proc
               {| Body.messages := messages; Body.strategyId := strategyId;
                  Body.walletIds := walletIds; Body.message := m1 |})
        = fst (ChatRoute.run agent proc
                 {| Body.messages := messages; Body.strategyId := strategyId;
                    Body.walletIds := walletIds; Body.message := m2 |})).
Proof.
  split; [vm_compute; reflexivity |].
  split; [vm_compute; reflexivity |].
  split; [vm_compute; reflexivity |].
  intros. now rewrite !relay_sends_once.
Qed.

(** C7 as stated fails: when the agent backend answers 500 with an empty
    body, the error payload of the relay is not that (empty) text but the
    text "Chat backend error". *)
Lemma relay_replaces_empty_error_text :
  Scenario.agent_silent (ChatRoute.chat_url Scenario.proc)
    (ChatRoute.forwarded Scenario.first_turn)
  = Resolved {| status := 500; text := []; json := None |}
  /\ snd (ChatRoute.run Scenario.agent_silent Scenario.proc Scenario.first_turn)
     = inr {| init_status := 500; payload := JError (lit "Chat backend error") |}
  /\ snd (ChatRoute.run Scenario.agent_silent Scenario.proc Scenario.first_turn)
     <> inr {| init_status := 500; payload := JError [] |}.
Proof.
  split; [reflexivity |]. split; [vm_compute; reflexivity |].
  vm_compute. discriminate.
Qed.

(** ** Numerals and the query string *)

Lemma lit_String (a : ascii) (r : string) :
  lit (String a r) = N_of_ascii a :: lit r.
Proof. reflexivity. Qed.

Lemma string_of_uint_chars (d : Decimal.uint) :
  forallb numeral_char (lit (NilEmpty.string_of_uint d)) = true.
Proof.
  induction d; simpl NilEmpty.string_of_uint; rewrite ?lit_String;
    simpl; try rewrite IHd; reflexivity.
Qed.

(** [String(n)] of an integer consists of digits and at most a minus sign. *)
Lemma String_of_int_chars (z : Z) :
  forallb numeral_char (String_of_int z) = true.
Proof.
  unfold String_of_int, NilZero.string_of_int.
  destruct (Z.to_int z) as [d | d].
  - destruct d; try apply string_of_uint_chars. reflexivity.
  - rewrite lit_String. simpl forallb.
    destruct d; try apply string_of_uint_chars. reflexivity.
Qed.

Lemma unreserved_bounds (b : N) :
  URLSearchParams.unreserved b = true -> (b <> 32 /\ b < 128)%N.
Proof.
  unfold URLSearchParams.unreserved.
  rewrite !orb_true_iff, !andb_true_iff, !N.leb_le, !N.eqb_eq. lia.
Qed.

Lemma numeral_char_unreserved (c : N) :
  numeral_char c = true -> URLSearchParams.unreserved c = true.
Proof.
  unfold numeral_char, URLSearchParams.unreserved.
  rewrite !orb_true_iff, !andb_true_iff, !N.leb_le, !N.eqb_eq. lia.
Qed.

(** A text made of unreserved bytes is its own serialisation. *)
Lemma encode_unreserved (s : jsstring) :
  forallb URLSearchParams.unreserved s = true -> URLSearchParams.encode s = s.
Proof.
  unfold URLSearchParams.encode.
  induction s as [| c r IH]; [reflexivity |].
  simpl forallb. rewrite andb_true_iff. intros [Hc Hr].
  destruct (unreserved_bounds c Hc) as [H32 H128].
  simpl URLSearchParams.scalar_values.
  replace ((55296 <=? c) && (c <=? 56319))%N with false
    by (symmetry; apply andb_false_iff; left; apply N.leb_gt; lia).
  replace ((56320 <=? c) && (c <=? 57343))%N with false
    by (symmetry; apply andb_false_iff; left; apply N.leb_gt; lia).
  simpl flat_map. unfold URLSearchParams.utf8 at 1.
  replace (c <? 128)%N with true by (symmetry; apply N.ltb_lt; lia).
  simpl app. simpl flat_map. unfold URLSearchParams.encode_byte at 1.
  replace (c =? 32)%N with false by (symmetry; apply N.eqb_neq; lia).
  rewrite Hc. simpl. now rewrite (IH Hr).
Qed.

Lemma encode_numeral (z : Z) :
  URLSearchParams.encode (String_of_int z) = String_of_int z.
Proof.
  apply encode_unreserved. generalize (String_of_int_chars z).
  induction (String_of_int z) as [| c r IH]; simpl; [reflexivity |].
  rewrite !andb_true_iff. intros [Hc Hr].
  split; [now apply numeral_char_unreserved | now apply IH].
Qed.

(** ** The history loader *)

(** One call of the loader requests one URL: the backend's base URL, the
    path of the history endpoint and the serialised parameters. *)
Lemma loader_requests_once net (proc : Process) strategyId limit :
  fst (HistoryLoader.run net proc strategyId limit)
  = [Backend.BACKEND_URL proc ++ lit "/api/chat/history?"
       ++ URLSearchParams.toString (HistoryLoader.params strategyId limit)].
Proof.
  unfold HistoryLoader.run, HistoryLoader.loadChatHistory, Backend.backend.
  simpl interp.
  destruct (net _) as [| [st tx js]]; simpl; [reflexivity |].
  unfold ok, res_json. simpl.
  destruct ((200 <=? st) && (st <=? 299))%Z; simpl; [| reflexivity].
  destruct js; reflexivity.
Qed.

Lemma params_without_strategy limit :
  HistoryLoader.params None limit
  = [(lit "limit", String_of_int (match limit with Some l => l | None => 50%Z end))].
Proof. reflexivity. Qed.



(** ** The attachment endpoint *)

Section UploadLoop.

Import FilesRoute.

Variable fw : World.
Variable dir : jsstring.

(** The URL pushed for [file] when the clock read [clock fw k]. *)
Local Abbreviation url_at := (fun kf : nat * File =>
  lit "/uploads/" ++ safeName (clock fw (fst kf)) (snd kf)).

(** When every write succeeds the loop returns one URL per file, in the
    order of the files, each stamped with its own clock reading. *)
Lemma for_files_all_written (files : list File) :
  forall (urls : list jsstring) (st : Storage),
    (forall k, k < List.length files -> write_ok fw (writes st + k) = true) ->
    snd (interp (handle fw) (for_files dir files urls) st)
    = inr (urls ++ map url_at (combine (seq (readings st) (List.length files)) files)).
Proof.
  induction files as [| file rest IH]; intros urls st Hw.
  - simpl. now rewrite app_nil_r.
  - simpl interp.
    assert (H0 : write_ok fw (writes st) = true).
    { rewrite <- (Nat.add_0_r (writes st)). apply Hw. simpl. lia. }
    rewrite H0. simpl.
    match goal with
    | |- context [interp ?h (for_files ?d rest ?acc) ?st'] =>
        specialize (IH acc st');
        destruct (interp h (for_files d rest acc) st') as [[s2 t] r]
    end.
    simpl in *. rewrite IH.
    + now rewrite <- app_assoc.
    + intros k Hk. replace (S (writes st + k)) with (writes st + S k) by lia.
      apply Hw. lia.
Qed.

End UploadLoop.

Lemma interp_bind {E : Type -> Type} {S O A B : Type}
    (h : forall X, E X -> S -> S * list O * X)
    (p : Prog E A) (f : A -> Prog E B) (s : S) :
  interp h (bind p f) s
  = let '(s1, t1, r1) := interp h p s in
    match r1 with
    | inl e => (s1, t1, inl e)
    | inr a => let '(s2, t2, r2) := interp h (f a) s1 in (s2, t1 ++ t2, r2)
    end.
Proof.
  revert s. induction p as [a | e | X ev k IH]; intros s; simpl.
  - now destruct (interp h (f a) s) as [[s2 t2] r2].
  - reflexivity.
  - destruct (h X ev s) as [[s1 o] x]. rewrite IH.
    destruct (interp h (k x) s1) as [[s2 t] [e | a]]; [reflexivity |].
    destruct (interp h (f a) s2) as [[s3 t3] r3]. now rewrite app_assoc.
Qed.

(** With a working file system the endpoint answers 200 with one URL per
    file of the form, in the order of the form. *)
Lemma upload_all_written (fw : FilesRoute.World) (proc : Process)
    (files : list File) (st : FilesRoute.Storage) :
  FilesRoute.mkdir_ok fw = true ->
  (forall k, k < List.length files ->
             FilesRoute.write_ok fw (FilesRoute.writes st + k) = true) ->
  snd (FilesRoute.run fw proc files st)
  = inr {| init_status := 200;
           payload := JUrls
             (map (fun kf : nat * File =>
                     lit "/uploads/"
                       ++ FilesRoute.safeName (FilesRoute.clock fw (fst kf)) (snd kf))
                  (combine (seq (FilesRoute.readings st) (List.length files)) files)) |}.
Proof.
  intros Hm Hw. unfold FilesRoute.run, FilesRoute.POST.
  set (dir := FilesRoute.path_join _).
  simpl interp. rewrite Hm. cbn [bind interp]. rewrite interp_bind.
  pose proof (for_files_all_written fw dir files [] st Hw) as Hloop.
  destruct (interp (FilesRoute.handle fw) (FilesRoute.for_files dir files []) st)
    as [[s1 t1] r1].
  simpl in Hloop. subst r1. now rewrite NextResponse_json_run.
Qed.

(** ** Reference lines *)












(* ===================================================================== *)
(** * Further properties of the code *)
(* ===================================================================== *)

(** ** More on [trim] *)

Lemma trimStart_split (s : jsstring) :
  exists pre, s = pre ++ trimStart s /\ forallb isWhiteSpace pre = true.
Proof.
  induction s as [| c r [pre [Hs Hp]]]; simpl.
  - now exists [].
  - destruct (isWhiteSpace c) eqn:Hc.
    + exists (c :: pre). simpl. rewrite Hc, Hp. split; [now f_equal | reflexivity].
    + now exists [].
Qed.

Lemma trimStart_head (s : jsstring) (c : N) :
  hd_error (trimStart s) = Some c -> isWhiteSpace c = false.
Proof.
  induction s as [| d r IH]; simpl; [discriminate |].
  destruct (isWhiteSpace d) eqn:Hd; [exact IH |].
  simpl. intros [= <-]. exact Hd.
Qed.

Lemma trimStart_fixed (s : jsstring) :
  (forall c, hd_error s = Some c -> isWhiteSpace c = false) -> trimStart s = s.
Proof.
  destruct s as [| c r]; simpl; [reflexivity |].
  intros H. now rewrite (H c eq_refl).
Qed.

Lemma trimStart_snoc (l : jsstring) (c : N) :
  isWhiteSpace c = false -> trimStart (l ++ [c]) = trimStart l ++ [c].
Proof.
  intros Hc. induction l as [| d r IH]; simpl.
  - now rewrite Hc.
  - destruct (isWhiteSpace d); [exact IH | reflexivity].
Qed.

Lemma trimEnd_cons (c : N) (r : jsstring) :
  isWhiteSpace c = false -> trimEnd (c :: r) = c :: trimEnd r.
Proof.
  intros Hc. unfold trimEnd. simpl rev.
  rewrite (trimStart_snoc _ _ Hc), rev_app_distr. reflexivity.
Qed.

Lemma trimEnd_idem (s : jsstring) : trimEnd (trimEnd s) = trimEnd s.
Proof. unfold trimEnd. now rewrite rev_involutive, trimStart_idem. Qed.

Lemma trimEnd_split (s : jsstring) :
  exists post, s = trimEnd s ++ post /\ forallb isWhiteSpace post = true.
Proof.
  destruct (trimStart_split (rev s)) as [pre [Hs Hp]].
  exists (rev pre). split.
  - rewrite <- (rev_involutive s) at 1. rewrite Hs at 1.
    now rewrite rev_app_distr.
  - now rewrite forallb_rev.
Qed.

(** The head of a trimmed text is no white space, and neither is its end. *)
Lemma trim_head (s : jsstring) (c : N) :
  hd_error (trim s) = Some c -> isWhiteSpace c = false.
Proof.
  unfold trim. destruct (trimStart s) as [| d r] eqn:Hs.
  - discriminate.
  - assert (Hd : isWhiteSpace d = false)
      by (apply (trimStart_head s); now rewrite Hs).
    rewrite (trimEnd_cons d r Hd). simpl. now intros [= <-].
Qed.

Lemma trim_last (s : jsstring) (c : N) :
  hd_error (rev (trim s)) = Some c -> isWhiteSpace c = false.
Proof.
  unfold trim, trimEnd. rewrite rev_involutive. apply trimStart_head.
Qed.

Lemma trim_idem (s : jsstring) : trim (trim s) = trim s.
Proof.
  assert (H : trimStart (trim s) = trim s)
    by (apply trimStart_fixed, trim_head).
  unfold trim at 1. rewrite H. unfold trim. apply trimEnd_idem.
Qed.

Lemma trim_split (s : jsstring) :
  exists pre post,
    s = pre ++ trim s ++ post
    /\ forallb isWhiteSpace pre = true /\ forallb isWhiteSpace post = true.
Proof.
  destruct (trimStart_split s) as [pre [Hs Hp]].
  destruct (trimEnd_split (trimStart s)) as [post [Ht Hq]].
  exists pre, post. unfold trim. now rewrite <- Ht.
Qed.

(** ** More on the chat pane *)



(** X2: when the relay answers a submission with a 2xx status and a
    readable [{ message }], exactly two messages are appended, the user
    message and then the reply, after all earlier messages; no notice is
    raised and [typing] is false again. *)
Theorem answered_submission_appends_reply
    (w : ChatPane.World) (s : ChatPane.State)
    (res : Response ChatMessage) (m : ChatMessage) :
  trim (ChatPane.input s) <> [] ->
  ChatPane.api_chat w (ChatPane.chat_body s (trim (ChatPane.input s))) = Resolved res ->
  ok res = true ->
  json res = Some m ->
  let userMsg := {| id := ChatPane.randomUUID w; role := user;
                    content := trim (ChatPane.input s) |} in
  let '(s2, seen, r) := ChatPane.submit w s in
  ChatPane.messages s2 = ChatPane.messages s ++ [userMsg; m]
  /\ List.length (ChatPane.messages s2) = 2 + List.length (ChatPane.messages s)
  /\ seen = [ChatPane.DefaultPrevented;
             ChatPane.ChatRequest (ChatPane.chat_body s (trim (ChatPane.input s)))]
  /\ ChatPane.typing s2 = false
  /\ r = inr tt.
Proof.
  intros Hne Hr Hok Hj userMsg.
  rewrite (submit_answered w s res m Hne Hr Hok Hj). simpl.
  repeat split. rewrite length_app. simpl. lia.
Qed.

Lemma answered_submission_appends_reply_witness :
  let userMsg := {| id := ChatPane.randomUUID Cases.answering; role := user;
                    content := trim (ChatPane.input Cases.padded) |} in
  let '(s2, seen, r) := ChatPane.submit Cases.answering Cases.padded in
  ChatPane.messages s2 = ChatPane.messages Cases.padded ++ [userMsg; Cases.reply]
  /\ List.length (ChatPane.messages s2) = 2 + List.length (ChatPane.messages Cases.padded)
  /\ seen = [ChatPane.DefaultPrevented;
             ChatPane.ChatRequest
               (ChatPane.chat_body Cases.padded (trim (ChatPane.input Cases.padded)))]
  /\ ChatPane.typing s2 = false
  /\ r = inr tt.
Proof.
  apply (answered_submission_appends_reply Cases.answering Cases.padded
           {| status := 200; text := []; json := Some Cases.reply |} Cases.reply).
  - vm_compute. discriminate.
  - reflexivity.
  - reflexivity.
  - reflexivity.
Defined.

(** X3: the content of the user message of a submission is the input
    without the white space around it: the input is white space, the
    content, white space; the content is not empty and neither starts nor
    ends with white space. *)
Theorem user_message_is_input_without_margins
    (w : ChatPane.World) (s : ChatPane.State) :
  trim (ChatPane.input s) <> [] ->
  exists userMsg pre post,
    ChatPane.messages (fst (fst (ChatPane.submit_begin w s)))
    = ChatPane.messages s ++ [userMsg]
    /\ role userMsg = user
    /\ ChatPane.input s = pre ++ content userMsg ++ post
    /\ forallb isWhiteSpace pre = true
    /\ forallb isWhiteSpace post = true
    /\ content userMsg <> []
    /\ (forall c, hd_error (content userMsg) = Some c -> isWhiteSpace c = false)
    /\ (forall c, hd_error (rev (content userMsg)) = Some c -> isWhiteSpace c = false).
Proof.
  intros Hne.
  destruct (trim_split (ChatPane.input s)) as [pre [post [Hs [Hp Hq]]]].
  exists {| id := ChatPane.randomUUID w; role := user;
            content := trim (ChatPane.input s) |}, pre, post.
  destruct (submit_begin_text w s Hne) as [k ->]. simpl.
  repeat split; try assumption.
  - apply trim_head.
  - apply trim_last.
Qed.

Lemma user_message_is_input_without_margins_witness :
  exists userMsg pre post,
    ChatPane.messages (fst (fst (ChatPane.submit_begin Cases.answering Cases.padded)))
    = ChatPane.messages Cases.padded ++ [userMsg]
    /\ role userMsg = user
    /\ ChatPane.input Cases.padded = pre ++ content userMsg ++ post
    /\ forallb isWhiteSpace pre = true
    /\ forallb isWhiteSpace post = true
    /\ content userMsg <> []
    /\ (forall c, hd_error (content userMsg) = Some c -> isWhiteSpace c = false)
    /\ (forall c, hd_error (rev (content userMsg)) = Some c -> isWhiteSpace c = false).
Proof.
  apply (user_message_is_input_without_margins Cases.answering Cases.padded).
  vm_compute. discriminate.
Defined.




(** ** More on the relay *)

Lemma find_snoc {A} (f : A -> bool) (l : list A) (a : A) :
  find f (l ++ [a])
  = match find f l with
    | Some m => Some m
    | None => if f a then Some a else None
    end.
Proof.
  induction l as [| x r IH]; simpl; [reflexivity |].
  destruct (f x); [reflexivity | exact IH].
Qed.

Lemma find_rev_last {A} (f : A -> bool) (l : list A) :
  match find f (rev l) with
  | Some m => exists before after,
      l = before ++ m :: after /\ f m = true
      /\ forallb (fun x => negb (f x)) after = true
  | None => forallb (fun x => negb (f x)) l = true
  end.
Proof.
  induction l as [| a l IH]; simpl; [reflexivity |].
  rewrite find_snoc. destruct (find f (rev l)) as [m |].
  - destruct IH as [before [after [Hl [Hm Ha]]]].
    exists (a :: before), after. simpl. now rewrite Hl.
  - destruct (f a) eqn:Hf.
    + exists [], l. auto.
    + simpl. now rewrite IH.
Qed.

(** X6: the utterance the relay forwards is the content of the last message
    of the posted history whose role is user, whatever follows it, and the
    empty string when the history has no message of role user (or is
    absent). *)
Theorem relay_forwards_last_user_line (body : Body.t) :
  let history := match Body.messages body with Some l => l | None => [] end in
  let other := fun m : ChatMessage => negb (Role_eqb (role m) user) in
  (exists before m after,
      history = before ++ m :: after
      /\ role m = user
      /\ forallb other after = true
      /\ Agent.message (ChatRoute.forwarded body) = content m)
  \/ (forallb other history = true
      /\ Agent.message (ChatRoute.forwarded body) = []).
Proof.
  intros history other. unfold ChatRoute.forwarded. simpl. fold history.
  pose proof (find_rev_last (fun m => Role_eqb (role m) user) history) as H.
  destruct (find (fun m => Role_eqb (role m) user) (rev history)) as [m |].
  - left. destruct H as [before [after [Hl [Hm Ha]]]].
    exists before, m, after. repeat split; try assumption.
    destruct (role m); simpl in Hm; congruence.
  - right. split; [exact H | reflexivity].
Qed.

Lemma relay_answered agent (proc : Process) (body : Body.t)
    (res : Response Agent.answer) (data : Agent.answer) :
  agent (ChatRoute.chat_url proc) (ChatRoute.forwarded body) = Resolved res ->
  ok res = true ->
  json res = Some data ->
  snd (ChatRoute.run agent proc body)
  = inr {| init_status := 200;
           payload := JMessage {| id := Agent.message_id data; role := assistant;
                                  content := Agent.agent_response data |} |}.
Proof.
  intros Hr Hok Hj. unfold ChatRoute.run, ChatRoute.POST. simpl. rewrite Hr.
  destruct res as [st tx js]. unfold ok, res_json in *. simpl in *.
  rewrite Hok. subst js. reflexivity.
Qed.

Lemma relay_unreadable agent (proc : Process) (body : Body.t)
    (res : Response Agent.answer) :
  agent (ChatRoute.chat_url proc) (ChatRoute.forwarded body) = Resolved res ->
  ok res = true ->
  json res = None ->
  snd (ChatRoute.run agent proc body) = inl JsonFailed.
Proof.
  intros Hr Hok Hj. unfold ChatRoute.run, ChatRoute.POST. simpl. rewrite Hr.
  destruct res as [st tx js]. unfold ok, res_json in *. simpl in *.
  rewrite Hok. subst js. reflexivity.
Qed.

Lemma relay_unsent agent (proc : Process) (body : Body.t) :
  agent (ChatRoute.chat_url proc) (ChatRoute.forwarded body) = Rejected ->
  snd (ChatRoute.run agent proc body) = inl FetchFailed.
Proof.
  intros Hr. unfold ChatRoute.run, ChatRoute.POST. simpl. now rewrite Hr.
Qed.

(** X7: when the agent backend answers 2xx with a readable
    [{ message_id, agent_response }], the relay answers 200 with the message
    whose identifier is [message_id], whose role is assistant and whose
    content is [agent_response], after one request to the backend. *)
Theorem relay_answers_with_assistant_message
    (agent : jsstring -> Agent.request -> FetchResult Agent.answer)
    (proc : Process) (body : Body.t)
    (res : Response Agent.answer) (data : Agent.answer) :
  agent (ChatRoute.chat_url proc) (ChatRoute.forwarded body) = Resolved res ->
  ok res = true ->
  json res = Some data ->
  ChatRoute.run agent proc body
  = ([(ChatRoute.chat_url proc, ChatRoute.forwarded body)],
     inr {| init_status := 200;
            payload := JMessage {| id := Agent.message_id data; role := assistant;
                                   content := Agent.agent_response data |} |}).
Proof.
  intros Hr Hok Hj.
  rewrite (surjective_pairing (ChatRoute.run agent proc body)).
  now rewrite relay_sends_once, (relay_answered agent proc body res data Hr Hok Hj).
Qed.

Lemma relay_answers_with_assistant_message_witness :
  ChatRoute.run Scenario.agent_well Scenario.proc Scenario.first_turn
  = ([(ChatRoute.chat_url Scenario.proc, ChatRoute.forwarded Scenario.first_turn)],
     inr {| init_status := 200;
            payload := JMessage {| id := lit "m-1"; role := assistant;
                                   content := lit "Done" |} |}).
Proof.
  apply (relay_answers_with_assistant_message Scenario.agent_well Scenario.proc
           Scenario.first_turn
           {| status := 200; text := [];
              json := Some {| Agent.message_id := lit "m-1";
                              Agent.agent_response := lit "Done" |} |}
           {| Agent.message_id := lit "m-1"; Agent.agent_response := lit "Done" |}).
  - reflexivity.
  - reflexivity.
  - reflexivity.
Defined.

(** X8: when the request to the agent backend cannot be sent, or its 2xx
    answer is not readable JSON, the relay handler throws (the failure of
    [fetch], of [res.json()]) after its single request and builds no
    response of its own. *)
Theorem relay_throws_without_backend_answer
    (agent : jsstring -> Agent.request -> FetchResult Agent.answer)
    (proc : Process) (body : Body.t) :
  agent (ChatRoute.chat_url proc) (ChatRoute.forwarded body) = Rejected
  \/ (exists res,
        agent (ChatRoute.chat_url proc) (ChatRoute.forwarded body) = Resolved res
        /\ ok res = true /\ json res = None) ->
  fst (ChatRoute.run agent proc body)
  = [(ChatRoute.chat_url proc, ChatRoute.forwarded body)]
  /\ exists e, snd (ChatRoute.run agent proc body) = inl e
               /\ (e = FetchFailed \/ e = JsonFailed).
Proof.
  intros H. split; [apply relay_sends_once |].
  destruct H as [Hr | [res [Hr [Hok Hj]]]].
  - exists FetchFailed. split; [now apply relay_unsent | now left].
  - exists JsonFailed. split; [now apply (relay_unreadable agent proc body res) | now right].
Qed.

Lemma relay_throws_without_backend_answer_witness :
  fst (ChatRoute.run (fun _ _ => Rejected) Scenario.proc Scenario.first_turn)
  = [(ChatRoute.chat_url Scenario.proc, ChatRoute.forwarded Scenario.first_turn)]
  /\ exists e,
       snd (ChatRoute.run (fun _ _ => Rejected) Scenario.proc Scenario.first_turn) = inl e
       /\ (e = FetchFailed \/ e = JsonFailed).
Proof.
  apply (relay_throws_without_backend_answer (fun _ _ => Rejected) Scenario.proc
           Scenario.first_turn).
  left. reflexivity.
Defined.

(** X9: the pane in front of the relay follows the agent backend.  For a
    submission of a text that is not blank: when the backend answers the
    relay's request with a 2xx status and readable JSON, the log gains the
    user message and the assistant message made of the backend's
    [message_id] and [agent_response], without notice; in every other case
    (request not sent, status not 2xx, unreadable answer) the log gains the
    user message alone and the notice "Chat error" is raised. *)
Theorem wired_pane_follows_agent
    (stringify : Json -> jsstring)
    (agent : jsstring -> Agent.request -> FetchResult Agent.answer)
    (proc : Process) (w : ChatPane.World) (s : ChatPane.State) :
  trim (ChatPane.input s) <> [] ->
  (forall b, ChatPane.api_chat w b = Wired.api_chat stringify agent proc b) ->
  let body := ChatPane.chat_body s (trim (ChatPane.input s)) in
  let userMsg := {| id := ChatPane.randomUUID w; role := user;
                    content := trim (ChatPane.input s) |} in
  let '(s2, seen, r) := ChatPane.submit w s in
  let unanswered :=
    ChatPane.messages s2 = ChatPane.messages s ++ [userMsg]
    /\ seen = [ChatPane.DefaultPrevented; ChatPane.ChatRequest body;
               ChatPane.ErrorToast (lit "Chat error")] in
  match agent (ChatRoute.chat_url proc) (ChatRoute.forwarded body) with
  | Resolved res =>
      if ok res then
        match json res with
        | Some data =>
            ChatPane.messages s2
            = ChatPane.messages s
              ++ [userMsg; {| id := Agent.message_id data; role := assistant;
                              content := Agent.agent_response data |}]
            /\ seen = [ChatPane.DefaultPrevented; ChatPane.ChatRequest body]
        | None => unanswered
        end
      else unanswered
  | Rejected => unanswered
  end.
Proof.
  intros Hne Hw body userMsg.
  specialize (Hw body). unfold Wired.api_chat in Hw.
  destruct (agent (ChatRoute.chat_url proc) (ChatRoute.forwarded body)) as [| res] eqn:Hr.
  - rewrite (relay_unsent agent proc body Hr) in Hw. simpl in Hw.
    rewrite (submit_failed w s Hne) by (fold body; now rewrite Hw).
    simpl. now split.
  - destruct (ok res) eqn:Hok.
    + destruct (json res) as [data |] eqn:Hj.
      * rewrite (relay_answered agent proc body res data Hr Hok Hj) in Hw.
        simpl in Hw.
        rewrite (submit_answered w s _ _ Hne Hw eq_refl eq_refl).
        simpl. now split.
      * rewrite (relay_unreadable agent proc body res Hr Hok Hj) in Hw. simpl in Hw.
        rewrite (submit_failed w s Hne) by (fold body; now rewrite Hw).
        simpl. now split.
    + rewrite (relay_refused agent proc body res Hr Hok) in Hw.
      rewrite (submit_failed w s Hne).
      * simpl. now split.
      * fold body. rewrite Hw. now apply served_refusal_failed.
Qed.

Lemma wired_pane_follows_agent_witness :
  let w := Scenario.echoing (lit "u-1") in
  let s := Scenario.typed in
  let body := ChatPane.chat_body s (trim (ChatPane.input s)) in
  let userMsg := {| id := ChatPane.randomUUID w; role := user;
                    content := trim (ChatPane.input s) |} in
  let '(s2, seen, r) := ChatPane.submit w s in
  let unanswered :=
    ChatPane.messages s2 = ChatPane.messages s ++ [userMsg]
    /\ seen = [ChatPane.DefaultPrevented; ChatPane.ChatRequest body;
               ChatPane.ErrorToast (lit "Chat error")] in
  match Scenario.agent_echo (ChatRoute.chat_url Scenario.proc)
          (ChatRoute.forwarded body) with
  | Resolved res =>
      if ok res then
        match json res with
        | Some data =>
            ChatPane.messages s2
            = ChatPane.messages s
              ++ [userMsg; {| id := Agent.message_id data; role := assistant;
                              content := Agent.agent_response data |}]
            /\ seen = [ChatPane.DefaultPrevented; ChatPane.ChatRequest body]
        | None => unanswered
        end
      else unanswered
  | Rejected => unanswered
  end.
Proof.
  apply (wired_pane_follows_agent Scenario.body_text Scenario.agent_echo Scenario.proc
           (Scenario.echoing (lit "u-1")) Scenario.typed).
  - vm_compute. discriminate.
  - intros b. reflexivity.
Defined.

(** ** More on the attachment endpoint *)

Lemma replace_unsafe_in_class (name : jsstring) :
  forallb FilesRoute.in_class (FilesRoute.replace_unsafe name) = true.
Proof.
  induction name as [| c r IH]; simpl; [reflexivity |].
  rewrite IH, andb_true_r.
  destruct (FilesRoute.in_class c) eqn:Hc; [exact Hc | reflexivity].
Qed.

Lemma replace_unsafe_fixed (name : jsstring) :
  forallb FilesRoute.in_class name = true -> FilesRoute.replace_unsafe name = name.
Proof.
  induction name as [| c r IH]; simpl; [reflexivity |].
  rewrite andb_true_iff. intros [Hc Hr]. now rewrite Hc, (IH Hr).
Qed.

(** X10: the sanitised form of a file name has the length of the name, holds
    only code units of the class [a-zA-Z0-9.-_], keeps every code unit of the
    name that is in the class at its place and puts an underscore at every
    other place; sanitising is the identity on names of the class, hence
    idempotent. *)
Theorem sanitised_name_is_safe (name : jsstring) :
  List.length (FilesRoute.replace_unsafe name) = List.length name
  /\ forallb FilesRoute.in_class (FilesRoute.replace_unsafe name) = true
  /\ (forall i c, nth_error name i = Some c ->
        nth_error (FilesRoute.replace_unsafe name) i
        = Some (if FilesRoute.in_class c then c else 95%N))
  /\ (forallb FilesRoute.in_class name = true -> FilesRoute.replace_unsafe name = name)
  /\ FilesRoute.replace_unsafe (FilesRoute.replace_unsafe name)
     = FilesRoute.replace_unsafe name.
Proof.
  split; [apply length_map |].
  split; [apply replace_unsafe_in_class |].
  split.
  - intros i c H. unfold FilesRoute.replace_unsafe.
    rewrite nth_error_map, H. reflexivity.
  - split; [apply replace_unsafe_fixed |].
    apply replace_unsafe_fixed, replace_unsafe_in_class.
Qed.

(** The stored name of a file holds no slash and has a hyphen. *)
Lemma safeName_no_slash (now : Z) (file : File) :
  forallb (fun c => negb (c =? 47)%N) (FilesRoute.safeName now file) = true.
Proof.
  unfold FilesRoute.safeName. rewrite !forallb_app. apply andb_true_iff. split.
  - generalize (String_of_int_chars now).
    induction (String_of_int now) as [| c r IH]; simpl; [reflexivity |].
    rewrite !andb_true_iff. intros [Hc Hr]. split; [| now apply IH].
    apply negb_true_iff, N.eqb_neq. revert Hc. unfold numeral_char.
    rewrite !orb_true_iff, !andb_true_iff, !N.leb_le, !N.eqb_eq. lia.
  - simpl. generalize (replace_unsafe_in_class (name file)).
    induction (FilesRoute.replace_unsafe (name file)) as [| c r IH]; simpl;
      [reflexivity |].
    rewrite !andb_true_iff. intros [Hc Hr]. split; [| now apply IH].
    apply negb_true_iff, N.eqb_neq. revert Hc. unfold FilesRoute.in_class.
    rewrite !orb_true_iff, !andb_true_iff, !N.leb_le, !N.eqb_eq. lia.
Qed.

Lemma safeName_has_hyphen (now : Z) (file : File) :
  In 45%N (FilesRoute.safeName now file).
Proof.
  unfold FilesRoute.safeName. apply in_or_app. right. left. reflexivity.
Qed.

(** X13: the pane in front of the endpoint reports such a batch as failed
    as a whole: when the handler of the endpoint throws (the directory
    cannot be made, or a write fails, possibly after others succeeded), the
    pane raises "Upload failed", leaves the input as it is and receives no
    URL, not even of the files that were stored. *)
Theorem thrown_upload_is_reported_as_failed
    (stringify : Json -> jsstring) (fw : FilesRoute.World) (proc : Process)
    (st : FilesRoute.Storage) (w : ChatPane.World) (s : ChatPane.State)
    (picked : list File) (e : Exn) :
  picked <> [] ->
  ChatPane.api_files w picked = Wired.api_files stringify fw proc st picked ->
  snd (FilesRoute.run fw proc picked st) = inl e ->
  ChatPane.select w picked s
  = (ChatPane.with_files picked s,
     [ChatPane.FilesRequest picked; ChatPane.ErrorToast (lit "Upload failed")],
     inr tt).
Proof.
  intros Hne Hw He. unfold Wired.api_files in Hw. rewrite He in Hw. simpl in Hw.
  now apply (select_refused w s picked _ Hne Hw).
Qed.

Lemma thrown_upload_is_reported_as_failed_witness :
  ChatPane.select Cases.unlucky [Scenario.a_png; Scenario.b_png] Scenario.typed
  = (ChatPane.with_files [Scenario.a_png; Scenario.b_png] Scenario.typed,
     [ChatPane.FilesRequest [Scenario.a_png; Scenario.b_png];
      ChatPane.ErrorToast (lit "Upload failed")],
     inr tt).
Proof.
  apply (thrown_upload_is_reported_as_failed Scenario.body_text Cases.flaky
           Scenario.proc Scenario.empty_disk Cases.unlucky Scenario.typed
           [Scenario.a_png; Scenario.b_png] FsFailed).
  - discriminate.
  - reflexivity.
  - vm_compute. reflexivity.
Defined.

(** ** Stored names *)

Lemma N_of_ascii_inj (a b : ascii) : N_of_ascii a = N_of_ascii b -> a = b.
Proof.
  intros H. rewrite <- (ascii_N_embedding a), <- (ascii_N_embedding b). now rewrite H.
Qed.

Lemma lit_inj (a b : string) : lit a = lit b -> a = b.
Proof.
  revert b. induction a as [| x a IH]; intros [| y b]; try discriminate.
  - reflexivity.
  - rewrite !lit_String. intros [= Hx Hr].
    now rewrite (N_of_ascii_inj x y Hx), (IH b Hr).
Qed.

(** [String(n)] tells integers apart. *)
Lemma String_of_int_inj (a b : Z) : String_of_int a = String_of_int b -> a = b.
Proof.
  unfold String_of_int. intros H. apply lit_inj in H.
  assert (Hnil : forall z, Z.to_int z <> Decimal.Pos Decimal.Nil
                           /\ Z.to_int z <> Decimal.Neg Decimal.Nil).
  { intros [| p | p]; simpl; split; try discriminate;
      intros [= E]; now apply (DecimalPos.Unsigned.to_uint_nonnil p). }
  apply DecimalZ.to_int_inj.
  destruct (Hnil a) as [Ha1 Ha2], (Hnil b) as [Hb1 Hb2].
  pose proof (NilZero.isi _ Ha1 Ha2) as Ia.
  pose proof (NilZero.isi _ Hb1 Hb2) as Ib.
  rewrite H in Ia. rewrite Ia in Ib. now injection Ib.
Qed.

Lemma string_of_uint_digits (d : Decimal.uint) :
  forallb digit (lit (NilEmpty.string_of_uint d)) = true.
Proof.
  induction d; simpl NilEmpty.string_of_uint; rewrite ?lit_String;
    simpl; try rewrite IHd; reflexivity.
Qed.

(** The numeral of an integer that is not negative consists of digits. *)
Lemma String_of_int_digits (z : Z) :
  (0 <= z)%Z -> forallb digit (String_of_int z) = true.
Proof.
  intros Hz. unfold String_of_int. destruct z as [| p | p]; [reflexivity | | lia].
  simpl. unfold NilZero.string_of_uint.
  destruct (Pos.to_uint p); try apply string_of_uint_digits. reflexivity.
Qed.

(** Two texts made of digits, each followed by a hyphen: the first hyphen
    tells where the digits end. *)
Lemma digits_hyphen_split (d1 d2 r1 r2 : jsstring) :
  forallb digit d1 = true -> forallb digit d2 = true ->
  d1 ++ 45%N :: r1 = d2 ++ 45%N :: r2 -> d1 = d2 /\ r1 = r2.
Proof.
  revert d2. induction d1 as [| c d1 IH]; intros [| e d2]; simpl.
  - intros _ _ [= ->]. now split.
  - intros _ He [= <- _]. discriminate.
  - intros Hc _ [= -> _]. discriminate.
  - rewrite !andb_true_iff. intros [_ H1] [_ H2] [= -> Hr].
    destruct (IH d2 H1 H2 Hr) as [-> ->]. now split.
Qed.

Lemma safeName_inj (t1 t2 : Z) (f1 f2 : File) :
  (0 <= t1)%Z -> (0 <= t2)%Z ->
  FilesRoute.safeName t1 f1 = FilesRoute.safeName t2 f2 ->
  t1 = t2
  /\ FilesRoute.replace_unsafe (name f1) = FilesRoute.replace_unsafe (name f2).
Proof.
  intros H1 H2 E. unfold FilesRoute.safeName in E.
  change (lit "-" ++ ?x) with (45%N :: x) in E.
  destruct (digits_hyphen_split _ _ _ _
              (String_of_int_digits t1 H1) (String_of_int_digits t2 H2) E) as [Ht Hn].
  split; [now apply String_of_int_inj | exact Hn].
Qed.

(** X14: the stored name tells the clock reading and the sanitised name
    apart: with clock readings that are not negative, two files get the same
    stored name only when they were stamped with the same reading and their
    names sanitise to the same text. *)
Theorem stored_name_identifies_time_and_name (t1 t2 : Z) (f1 f2 : File) :
  (0 <= t1)%Z ->
  (0 <= t2)%Z ->
  (FilesRoute.safeName t1 f1 = FilesRoute.safeName t2 f2
   <-> t1 = t2
       /\ FilesRoute.replace_unsafe (name f1) = FilesRoute.replace_unsafe (name f2)).
Proof.
  intros H1 H2. split.
  - now apply safeName_inj.
  - intros [-> Hn]. unfold FilesRoute.safeName. now rewrite Hn.
Qed.

Lemma stored_name_identifies_time_and_name_witness :
  FilesRoute.safeName 1670000000000 Scenario.a_png
  = FilesRoute.safeName 1670000000001 Scenario.b_png
  <-> 1670000000000%Z = 1670000000001%Z
      /\ FilesRoute.replace_unsafe (name Scenario.a_png)
         = FilesRoute.replace_unsafe (name Scenario.b_png).
Proof.
  apply (stored_name_identifies_time_and_name 1670000000000 1670000000001
           Scenario.a_png Scenario.b_png); lia.
Defined.

Lemma urls_distinct (fw : FilesRoute.World) (files : list File) :
  forall r,
    (forall k, r <= k < r + List.length files -> (0 <= FilesRoute.clock fw k)%Z) ->
    (forall i j, r <= i < r + List.length files -> r <= j < r + List.length files ->
                 FilesRoute.clock fw i = FilesRoute.clock fw j -> i = j) ->
    NoDup (map (fun kf : nat * File =>
                  lit "/uploads/"
                    ++ FilesRoute.safeName (FilesRoute.clock fw (fst kf)) (snd kf))
               (combine (seq r (List.length files)) files)).
Proof.
  induction files as [| f rest IH]; intros r Hpos Hinj; simpl; [constructor |].
  constructor.
  - intros Hin. apply in_map_iff in Hin as [[k g] [E Hk]].
    apply in_combine_l, in_seq in Hk. simpl in E.
    injection E as E.
    apply safeName_inj in E as [Et _].
    + assert (k = r) by (apply Hinj; simpl; lia || assumption). lia.
    + apply Hpos. simpl. lia.
    + apply Hpos. simpl. lia.
  - apply IH.
    + intros k Hk. apply Hpos. simpl. lia.
    + intros i j Hi Hj. apply Hinj; simpl; lia.
Qed.

(** X15: when the clock readings taken for a batch are not negative and
    pairwise different and every write succeeds, the URLs that the endpoint
    returns are pairwise different: no file of the batch takes the stored
    name of another, even when their names are equal. *)
Theorem distinct_readings_give_distinct_urls
    (fw : FilesRoute.World) (proc : Process) (files : list File)
    (st : FilesRoute.Storage) :
  FilesRoute.mkdir_ok fw = true ->
  (forall k, k < List.length files ->
             FilesRoute.write_ok fw (FilesRoute.writes st + k) = true) ->
  (forall k, FilesRoute.readings st <= k < FilesRoute.readings st + List.length files ->
             (0 <= FilesRoute.clock fw k)%Z) ->
  (forall i j,
      FilesRoute.readings st <= i < FilesRoute.readings st + List.length files ->
      FilesRoute.readings st <= j < FilesRoute.readings st + List.length files ->
      FilesRoute.clock fw i = FilesRoute.clock fw j -> i = j) ->
  exists urls,
    snd (FilesRoute.run fw proc files st)
    = inr {| init_status := 200; payload := JUrls urls |}
    /\ List.length urls = List.length files
    /\ NoDup urls.
Proof.
  intros Hm Hw Hpos Hinj. eexists. split; [| split].
  - apply (upload_all_written fw proc files st Hm Hw).
  - rewrite length_map, length_combine, length_seq. apply Nat.min_id.
  - now apply urls_distinct.
Qed.

Lemma distinct_readings_give_distinct_urls_witness :
  exists urls,
    snd (FilesRoute.run Scenario.healthy Scenario.proc
           [Scenario.a_png; Scenario.a_png] Scenario.empty_disk)
    = inr {| init_status := 200; payload := JUrls urls |}
    /\ List.length urls = List.length [Scenario.a_png; Scenario.a_png]
    /\ NoDup urls.
Proof.
  apply (distinct_readings_give_distinct_urls Scenario.healthy Scenario.proc
           [Scenario.a_png; Scenario.a_png] Scenario.empty_disk).
  - reflexivity.
  - intros k _. reflexivity.
  - intros k _. unfold Scenario.healthy. cbn [FilesRoute.clock]. lia.
  - intros i j _ _. unfold Scenario.healthy. cbn [FilesRoute.clock]. lia.
Defined.

(** ** More on the history loader *)

Lemma loader_outcome net (proc : Process) strategyId limit :
  snd (HistoryLoader.run net proc strategyId limit)
  = match net (Backend.BACKEND_URL proc ++ lit "/api/chat/history?"
                 ++ URLSearchParams.toString (HistoryLoader.params strategyId limit)) with
    | Rejected => inl FetchFailed
    | Resolved res =>
        if ok res then
          match json res with
          | Some v => inr v
          | None => inl JsonFailed
          end
        else inl (Error (lit "Backend " ++ String_of_int (status res)))
    end.
Proof.
  unfold HistoryLoader.run, HistoryLoader.loadChatHistory, Backend.backend.
  simpl interp.
  destruct (net _) as [| [st tx js]]; simpl; [reflexivity |].
  unfold ok, res_json. simpl.
  destruct ((200 <=? st) && (st <=? 299))%Z; simpl; [| reflexivity].
  destruct js; reflexivity.
Qed.

(** X16: the loader gives a history only when the backend answered its one
    request with a 2xx status and readable JSON, and then gives exactly that
    JSON; a status that is not 2xx makes it throw the error "Backend
    <status>", and it never returns anything else in place of the answer. *)
Theorem loader_returns_backend_answer_or_throws
    (net : jsstring -> FetchResult HistoryLoader.ChatHistoryResponse)
    (proc : Process) (strategyId : option jsstring) (limit : option Z) :
  let url := Backend.BACKEND_URL proc ++ lit "/api/chat/history?"
               ++ URLSearchParams.toString (HistoryLoader.params strategyId limit) in
  fst (HistoryLoader.run net proc strategyId limit) = [url]
  /\ (forall v,
        snd (HistoryLoader.run net proc strategyId limit) = inr v
        <-> exists res, net url = Resolved res /\ ok res = true /\ json res = Some v)
  /\ (forall res,
        net url = Resolved res -> ok res = false ->
        snd (HistoryLoader.run net proc strategyId limit)
        = inl (Error (lit "Backend " ++ String_of_int (status res)))).
Proof.
  intros url. split; [apply loader_requests_once |].
  rewrite loader_outcome. fold url. split.
  - intros v. split.
    + destruct (net url) as [| res]; [discriminate |].
      destruct (ok res) eqn:Hok; [| discriminate].
      destruct (json res) as [v' |] eqn:Hj; [| discriminate].
      intros [= <-]. now exists res.
    + intros [res [-> [-> ->]]]. reflexivity.
  - intros res -> ->. reflexivity.
Qed.

(** ** What the serialised query is made of *)

Lemma forallb_weaken {A} (f g : A -> bool) (l : list A) :
  (forall x, f x = true -> g x = true) ->
  forallb f l = true -> forallb g l = true.
Proof.
  intros H. induction l as [| a l IH]; simpl; [reflexivity |].
  rewrite !andb_true_iff. intros [Ha Hl]. split; [now apply H | now apply IH].
Qed.

Lemma forallb_flat_map {A B} (f : A -> list B) (p : A -> bool) (q : B -> bool)
    (l : list A) :
  (forall x, p x = true -> forallb q (f x) = true) ->
  forallb p l = true -> forallb q (flat_map f l) = true.
Proof.
  intros H. induction l as [| a l IH]; simpl; [reflexivity |].
  rewrite andb_true_iff. intros [Ha Hl].
  rewrite forallb_app, (H a Ha), (IH Hl). reflexivity.
Qed.

Lemma hex_digit_unreserved (n : N) :
  (n < 16)%N -> URLSearchParams.unreserved (URLSearchParams.hex_digit n) = true.
Proof.
  intros H. unfold URLSearchParams.hex_digit, URLSearchParams.unreserved.
  destruct (n <? 10)%N eqn:Hn; [apply N.ltb_lt in Hn | apply N.ltb_ge in Hn];
    rewrite !orb_true_iff, !andb_true_iff, !N.leb_le, !N.eqb_eq; lia.
Qed.

Lemma encode_byte_safe (b : N) :
  (b <? 256)%N = true -> forallb query_safe (URLSearchParams.encode_byte b) = true.
Proof.
  intros Hb. apply N.ltb_lt in Hb. unfold URLSearchParams.encode_byte.
  destruct (b =? 32)%N; [reflexivity |].
  destruct (URLSearchParams.unreserved b) eqn:Hu.
  - simpl. unfold query_safe. now rewrite Hu.
  - assert (H1 : (b / 16 < 16)%N) by (apply N.Div0.div_lt_upper_bound; lia).
    assert (H2 : (b mod 16 < 16)%N) by (apply N.mod_lt; lia).
    cbn [forallb]. unfold query_safe.
    now rewrite (hex_digit_unreserved _ H1), (hex_digit_unreserved _ H2).
Qed.

Lemma utf8_bytes (v : N) :
  (v <? 1114112)%N = true ->
  forallb (fun b => (b <? 256)%N) (URLSearchParams.utf8 v) = true.
Proof.
  intros Hv. apply N.ltb_lt in Hv. unfold URLSearchParams.utf8.
  pose proof (N.mod_lt v 64) as M1.
  pose proof (N.mod_lt (v / 64) 64) as M2.
  pose proof (N.mod_lt (v / 4096) 64) as M3.
  destruct (v <? 128)%N eqn:H1.
  { apply N.ltb_lt in H1. cbn [forallb]. rewrite andb_true_r. apply N.ltb_lt. lia. }
  destruct (v <? 2048)%N eqn:H2.
  { apply N.ltb_lt in H2.
    pose proof (N.Div0.div_lt_upper_bound v 64 32) as D.
    cbn [forallb]. rewrite !andb_true_iff, !N.ltb_lt. repeat split; lia. }
  destruct (v <? 65536)%N eqn:H3.
  { apply N.ltb_lt in H3.
    pose proof (N.Div0.div_lt_upper_bound v 4096 16) as D.
    cbn [forallb]. rewrite !andb_true_iff, !N.ltb_lt. repeat split; lia. }
  pose proof (N.Div0.div_lt_upper_bound v 262144 16) as D.
  cbn [forallb]. rewrite !andb_true_iff, !N.ltb_lt. repeat split; lia.
Qed.

Lemma scalar_values_step (c d : N) (s : jsstring) :
  URLSearchParams.scalar_values (c :: d :: s)
  = if ((55296 <=? c) && (c <=? 56319))%N then
      if ((56320 <=? d) && (d <=? 57343))%N
      then (65536 + (c - 55296) * 1024 + (d - 56320))%N :: URLSearchParams.scalar_values s
      else 65533%N :: URLSearchParams.scalar_values (d :: s)
    else if ((56320 <=? c) && (c <=? 57343))%N
         then 65533%N :: URLSearchParams.scalar_values (d :: s)
         else c :: URLSearchParams.scalar_values (d :: s).
Proof. reflexivity. Qed.

(** The scalar values of a well-formed string are code points. *)
Lemma scalar_values_bound (s : jsstring) :
  (well_formed s = true ->
   forallb (fun v => (v <? 1114112)%N) (URLSearchParams.scalar_values s) = true)
  /\ (forall c, well_formed (c :: s) = true ->
        forallb (fun v => (v <? 1114112)%N) (URLSearchParams.scalar_values (c :: s))
        = true).
Proof.
  unfold well_formed.
  induction s as [| d s [IH1 IH2]].
  - split; [reflexivity |]. intros c. simpl. rewrite andb_true_r, N.ltb_lt. intros Hc.
    destruct ((55296 <=? c) && (c <=? 56319))%N; [reflexivity |].
    destruct ((56320 <=? c) && (c <=? 57343))%N; [reflexivity |].
    simpl. rewrite andb_true_r. apply N.ltb_lt. lia.
  - split; [apply IH2 |]. intros c Hc.
    change (forallb (fun c => (c <? 65536)%N) (c :: d :: s))
      with ((c <? 65536)%N && forallb (fun c => (c <? 65536)%N) (d :: s)) in Hc.
    apply andb_true_iff in Hc as [Hc Hd]. apply N.ltb_lt in Hc.
    rewrite scalar_values_step.
    destruct ((55296 <=? c) && (c <=? 56319))%N eqn:Hhi.
    + destruct ((56320 <=? d) && (d <=? 57343))%N eqn:Hlo.
      * apply andb_true_iff in Hhi as [Hh1 Hh2]. apply andb_true_iff in Hlo as [Hl1 Hl2].
        apply N.leb_le in Hh1, Hh2, Hl1, Hl2.
        simpl in Hd. apply andb_true_iff in Hd as [_ Hs].
        cbn [forallb]. rewrite (IH1 Hs), andb_true_r. apply N.ltb_lt. lia.
      * cbn [forallb]. now rewrite (IH2 d Hd).
    + destruct ((56320 <=? c) && (c <=? 57343))%N.
      * cbn [forallb]. now rewrite (IH2 d Hd).
      * cbn [forallb]. rewrite (IH2 d Hd), andb_true_r. apply N.ltb_lt. lia.
Qed.

(** The serialisation of a well-formed string is made of query-safe code
    units only. *)
Lemma encode_safe (s : jsstring) :
  well_formed s = true -> forallb query_safe (URLSearchParams.encode s) = true.
Proof.
  intros Hs. unfold URLSearchParams.encode.
  apply (forallb_flat_map _ (fun b => (b <? 256)%N)); [apply encode_byte_safe |].
  apply (forallb_flat_map _ (fun v => (v <? 1114112)%N)); [apply utf8_bytes |].
  now apply scalar_values_bound.
Qed.

Lemma query_safe_plain (c : N) :
  query_safe c = true -> (c <> 38 /\ c <> 61 /\ c < 128)%N.
Proof.
  unfold query_safe, URLSearchParams.unreserved.
  rewrite !orb_true_iff, !andb_true_iff, !N.leb_le, !N.eqb_eq. lia.
Qed.

Lemma numeral_char_plain (c : N) :
  numeral_char c = true -> (c <> 38 /\ c <> 61 /\ c < 128)%N.
Proof.
  unfold numeral_char.
  rewrite !orb_true_iff, !andb_true_iff, !N.leb_le, !N.eqb_eq. lia.
Qed.

Lemma count_occ_none (p : N -> bool) (x : N) (l : jsstring) :
  (forall c, p c = true -> c <> x) ->
  forallb p l = true -> count_occ N.eq_dec l x = 0.
Proof.
  intros H Hl. apply count_occ_not_In. intros Hin.
  rewrite forallb_forall in Hl. exact (H x (Hl x Hin) eq_refl).
Qed.

(** X18: a strategy identifier cannot add parameters to the history query.
    For every well-formed, non-empty identifier the query string is made of
    ASCII code units only and holds exactly one ampersand and exactly two
    equals signs, those of [strategy_id=...&limit=...]: the identifier
    itself is serialised to letters, digits, [*-._], plus and percent
    escapes. *)
Theorem strategy_id_cannot_add_parameters (sid : jsstring) (limit : option Z) :
  well_formed sid = true ->
  sid <> [] ->
  let query := URLSearchParams.toString (HistoryLoader.params (Some sid) limit) in
  forallb query_safe (URLSearchParams.encode sid) = true
  /\ forallb (fun c => (c <? 128)%N) query = true
  /\ count_occ N.eq_dec query 38%N = 1
  /\ count_occ N.eq_dec query 61%N = 2.
Proof.
  intros Hwf Hne query.
  pose proof (encode_safe sid Hwf) as Hsafe.
  set (n := match limit with Some l => l | None => 50%Z end).
  assert (Hq : query = lit "strategy_id=" ++ URLSearchParams.encode sid
                         ++ lit "&limit=" ++ String_of_int n).
  { unfold query. destruct sid as [| c r]; [congruence |].
    unfold HistoryLoader.params. cbn [truthy]. fold n.
    change (URLSearchParams.set (lit "strategy_id") (c :: r) [])
      with [(lit "strategy_id", c :: r)].
    change (URLSearchParams.set (lit "limit") ?v [(lit "strategy_id", c :: r)])
      with [(lit "strategy_id", c :: r); (lit "limit", v)].
    unfold URLSearchParams.toString. cbn [map join fst snd].
    rewrite encode_numeral.
    change (URLSearchParams.encode (lit "limit")) with (lit "limit").
    change (URLSearchParams.encode (lit "strategy_id")) with (lit "strategy_id").
    rewrite <- !app_assoc. reflexivity. }
  pose proof (String_of_int_chars n) as Hn.
  split; [exact Hsafe |]. rewrite Hq. split; [| split].
  - rewrite !forallb_app.
    rewrite (forallb_weaken query_safe (fun c => (c <? 128)%N) _
               (fun c H => proj2 (N.ltb_lt _ _) (proj2 (proj2 (query_safe_plain c H)))) Hsafe).
    rewrite (forallb_weaken numeral_char (fun c => (c <? 128)%N) _
               (fun c H => proj2 (N.ltb_lt _ _) (proj2 (proj2 (numeral_char_plain c H)))) Hn).
    reflexivity.
  - rewrite !count_occ_app.
    rewrite (count_occ_none query_safe 38%N _
               (fun c H => proj1 (query_safe_plain c H)) Hsafe).
    rewrite (count_occ_none numeral_char 38%N _
               (fun c H => proj1 (numeral_char_plain c H)) Hn).
    reflexivity.
  - rewrite !count_occ_app.
    rewrite (count_occ_none query_safe 61%N _
               (fun c H => proj1 (proj2 (query_safe_plain c H))) Hsafe).
    rewrite (count_occ_none numeral_char 61%N _
               (fun c H => proj1 (proj2 (numeral_char_plain c H))) Hn).
    reflexivity.
Qed.

Lemma strategy_id_cannot_add_parameters_witness :
  let query :=
    URLSearchParams.toString (HistoryLoader.params (Some (lit "a&limit=1000")) None) in
  forallb query_safe (URLSearchParams.encode (lit "a&limit=1000")) = true
  /\ forallb (fun c => (c <? 128)%N) query = true
  /\ count_occ N.eq_dec query 38%N = 1
  /\ count_occ N.eq_dec query 61%N = 2.
Proof.
  apply (strategy_id_cannot_add_parameters (lit "a&limit=1000") None).
  - reflexivity.
  - discriminate.
Defined.

(** ** The wallet and strategy forms *)

Lemma split_aux_app (sep : N) (l cur rest : jsstring) :
  forallb (fun c => negb (c =? sep)%N) l = true ->
  JsText.split_aux sep cur (l ++ rest) = JsText.split_aux sep (rev l ++ cur) rest.
Proof.
  revert cur. induction l as [| c r IH]; intros cur; simpl; [reflexivity |].
  rewrite andb_true_iff. intros [Hc Hr].
  apply negb_true_iff in Hc. rewrite Hc, (IH _ Hr).
  now rewrite <- app_assoc.
Qed.

Lemma split_aux_sep (sep : N) (cur rest : jsstring) :
  JsText.split_aux sep cur ([sep] ++ rest) = rev cur :: JsText.split_aux sep [] rest.
Proof. simpl. now rewrite N.eqb_refl. Qed.

Lemma split_aux_join (sep : N) (x : jsstring) (r : list jsstring) :
  forall cur,
    forallb (forallb (fun c => negb (c =? sep)%N)) (x :: r) = true ->
    JsText.split_aux sep cur (join [sep] (x :: r)) = (rev cur ++ x) :: r.
Proof.
  revert x. induction r as [| y r IH]; intros x cur H.
  - simpl in *. rewrite andb_true_r in H.
    rewrite <- (app_nil_r x) at 1. rewrite (split_aux_app sep x cur [] H).
    simpl. now rewrite rev_app_distr, rev_involutive.
  - change (join [sep] (x :: y :: r)) with (x ++ [sep] ++ join [sep] (y :: r)).
    simpl forallb in H. apply andb_true_iff in H as [Hx Hr].
    rewrite (split_aux_app sep x cur _ Hx), split_aux_sep.
    rewrite (IH y [] Hr). simpl.
    now rewrite rev_app_distr, rev_involutive.
Qed.

(** The pieces of a split hold no separator. *)
Lemma split_aux_pieces (sep : N) (s : jsstring) :
  forall cur,
    forallb (fun c => negb (c =? sep)%N) cur = true ->
    forallb (forallb (fun c => negb (c =? sep)%N)) (JsText.split_aux sep cur s) = true.
Proof.
  induction s as [| c r IH]; intros cur Hcur; simpl.
  - now rewrite forallb_rev, Hcur.
  - destruct (c =? sep)%N eqn:Hc.
    + simpl. rewrite forallb_rev, Hcur. now apply IH.
    + apply IH. simpl. now rewrite Hc, Hcur.
Qed.

Lemma trim_keeps_out (p : N -> bool) (s : jsstring) :
  forallb p s = true -> forallb p (trim s) = true.
Proof.
  intros H. destruct (trim_split s) as [pre [post [Hs _]]].
  rewrite Hs, !forallb_app in H.
  apply andb_true_iff in H as [_ H]. now apply andb_true_iff in H as [H _].
Qed.

(** X20: every token that the wallet form posts is clean: it is not empty,
    has no white space around it and holds no comma, whatever was typed into
    the tokens field. *)
Theorem posted_tokens_are_clean (tokens t : jsstring) :
  In t (WalletsPage.token_list tokens) ->
  t <> []
  /\ trim t = t
  /\ forallb (fun c => negb (c =? JsText.comma)%N) t = true.
Proof.
  unfold WalletsPage.token_list. intros H.
  apply filter_In in H as [Hin Ht]. apply in_map_iff in Hin as [piece [<- Hp]].
  split; [now apply truthy_cons_iff |].
  split; [apply trim_idem |].
  apply trim_keeps_out.
  pose proof (split_aux_pieces JsText.comma tokens [] eq_refl) as Hall.
  rewrite forallb_forall in Hall. now apply Hall.
Qed.

Lemma posted_tokens_are_clean_witness :
  lit "ETH" <> []
  /\ trim (lit "ETH") = lit "ETH"
  /\ forallb (fun c => negb (c =? JsText.comma)%N) (lit "ETH") = true.
Proof.
  apply (posted_tokens_are_clean (lit " BTC , ETH,,USDC ") (lit "ETH")).
  vm_compute. right. left. reflexivity.
Defined.

(** X21: a list of clean tokens, written with commas between them, is read
    back as it is by the wallet form: same tokens, same order, repetitions
    kept. *)
Theorem clean_tokens_are_read_back (l : list jsstring) :
  (forall t, In t l ->
     t <> [] /\ trim t = t
     /\ forallb (fun c => negb (c =? JsText.comma)%N) t = true) ->
  WalletsPage.token_list (join [JsText.comma] l) = l.
Proof.
  intros H. unfold WalletsPage.token_list, JsText.split.
  destruct l as [| x r]; [reflexivity |].
  rewrite (split_aux_join JsText.comma x r []).
  - change (rev [] ++ x) with x.
    assert (Hm : map trim (x :: r) = x :: r).
    { rewrite <- (map_id (x :: r)) at 2. apply map_ext_in.
      intros t Ht. now apply H. }
    apply (eq_trans (f_equal (filter truthy) Hm)). apply forallb_filter_id.
    apply forallb_forall. intros t Ht. apply truthy_cons_iff. now apply H.
  - apply forallb_forall. intros t Ht. now apply H.
Qed.

Lemma clean_tokens_are_read_back_witness :
  WalletsPage.token_list (join [JsText.comma] [lit "BTC"; lit "ETH"; lit "USDC"])
  = [lit "BTC"; lit "ETH"; lit "USDC"].
Proof.
  apply (clean_tokens_are_read_back [lit "BTC"; lit "ETH"; lit "USDC"]).
  intros t [<- | [<- | [<- | []]]]; repeat split; discriminate.
Defined.

Lemma JsText_eqb_eq (a b : jsstring) : JsText.eqb a b = true <-> a = b.
Proof.
  revert b. induction a as [| x a IH]; intros [| y b]; simpl;
    try (split; [discriminate | discriminate]); [now split |].
  rewrite andb_true_iff, N.eqb_eq, IH. split.
  - now intros [-> ->].
  - now intros [= -> ->].
Qed.

Lemma JsText_eqb_refl (a : jsstring) : JsText.eqb a a = true.
Proof. now apply JsText_eqb_eq. Qed.

(** X22: after the update of a wallet check box, the selection includes
    that wallet exactly when the box is checked, and includes every other
    wallet exactly when it did before. *)
Theorem wallet_check_box_sets_membership
    (checked : bool) (w_id : jsstring) (selectedWallets : list jsstring) :
  StrategiesPage.includes w_id (StrategiesPage.onChange checked w_id selectedWallets)
  = checked
  /\ (forall other, other <> w_id ->
        StrategiesPage.includes other
          (StrategiesPage.onChange checked w_id selectedWallets)
        = StrategiesPage.includes other selectedWallets).
Proof.
  unfold StrategiesPage.includes, StrategiesPage.onChange. split.
  - destruct checked.
    + rewrite existsb_app. simpl. rewrite JsText_eqb_refl. apply orb_true_r.
    + induction selectedWallets as [| x l IH]; simpl; [reflexivity |].
      destruct (JsText.eqb x w_id) eqn:E; simpl; [exact IH |].
      now rewrite E, IH.
  - intros other Hne. destruct checked.
    + rewrite existsb_app. simpl.
      destruct (JsText.eqb w_id other) eqn:E.
      * apply JsText_eqb_eq in E. congruence.
      * now rewrite !orb_false_r.
    + induction selectedWallets as [| x l IH]; simpl; [reflexivity |].
      destruct (JsText.eqb x w_id) eqn:E; simpl.
      * apply JsText_eqb_eq in E. subst x.
        destruct (JsText.eqb w_id other) eqn:E'.
        -- apply JsText_eqb_eq in E'. congruence.
        -- exact IH.
      * now rewrite IH.
Qed.

(** X23: checking a wallet that the selection did not include and then
    unchecking it gives the selection back; unchecking removes every
    occurrence and keeps the others in their order. *)
Theorem wallet_uncheck_undoes_check (w_id : jsstring) (selectedWallets : list jsstring) :
  StrategiesPage.includes w_id selectedWallets = false ->
  StrategiesPage.onChange false w_id (StrategiesPage.onChange true w_id selectedWallets)
  = selectedWallets.
Proof.
  unfold StrategiesPage.includes, StrategiesPage.onChange. intros H.
  rewrite filter_app. simpl. rewrite JsText_eqb_refl. simpl. rewrite app_nil_r.
  induction selectedWallets as [| x l IH]; simpl in *; [reflexivity |].
  apply orb_false_iff in H as [Hx Hl]. rewrite Hx. simpl. now rewrite (IH Hl).
Qed.

Lemma wallet_uncheck_undoes_check_witness :
  StrategiesPage.onChange false (lit "w2")
    (StrategiesPage.onChange true (lit "w2") [lit "w1"; lit "w3"])
  = [lit "w1"; lit "w3"].
Proof.
  apply (wallet_uncheck_undoes_check (lit "w2") [lit "w1"; lit "w3"]).
  reflexivity.
Defined.


(** ** The relay on a refused call *)

(** C7, as the code has it: for every relay call that the agent backend
    answers with a status that is not 2xx, the backend is asked exactly once.
    When the status is one a response with a body can carry (300 to 599,
    304 apart), the relay answers with that same status, and the error
    payload is the backend's body text when that text is not empty and
    "Chat backend error" when it is empty.  For status 304 and for a status
    outside 200..599 the relay answers nothing of its own: building the
    response throws (a [TypeError], a [RangeError]). *)
Theorem relay_surfaces_backend_failure
    (agent : jsstring -> Agent.request -> FetchResult Agent.answer)
    (proc : Process) (body : Body.t) (res : Response Agent.answer) :
  agent (ChatRoute.chat_url proc) (ChatRoute.forwarded body) = Resolved res ->
  ok res = false ->
  let errorText := if truthy (text res) then text res else lit "Chat backend error" in
  fst (ChatRoute.run agent proc body)
  = [(ChatRoute.chat_url proc, ChatRoute.forwarded body)]
  /\ ((300 <= status res <= 599)%Z -> status res <> 304%Z ->
      snd (ChatRoute.run agent proc body)
      = inr {| init_status := status res; payload := JError errorText |})
  /\ (status res = 304%Z -> snd (ChatRoute.run agent proc body) = inl TypeError)
  /\ ((status res < 200 \/ 599 < status res)%Z ->
      snd (ChatRoute.run agent proc body) = inl RangeError).
Proof.
  intros Hr Hok errorText. split; [apply relay_sends_once |].
  rewrite (relay_refused agent proc body res Hr Hok). fold errorText.
  unfold ok in Hok. unfold built, null_body_status. cbn [existsb].
  split; [| split].
  - intros Hin Hne.
    replace ((200 <=? status res) && (status res <=? 599))%Z with true
      by (symmetry; apply andb_true_iff; split; apply Z.leb_le; lia).
    cbn [negb].
    replace (status res =? 101)%Z with false by (symmetry; apply Z.eqb_neq; lia).
    replace (status res =? 103)%Z with false by (symmetry; apply Z.eqb_neq; lia).
    replace (status res =? 204)%Z with false by (symmetry; apply Z.eqb_neq; lia).
    replace (status res =? 205)%Z with false by (symmetry; apply Z.eqb_neq; lia).
    replace (status res =? 304)%Z with false by (symmetry; apply Z.eqb_neq; lia).
    reflexivity.
  - intros E. rewrite E. reflexivity.
  - intros Hout.
    replace ((200 <=? status res) && (status res <=? 599))%Z with false; [reflexivity |].
    symmetry. apply andb_false_iff.
    destruct Hout; [left; apply Z.leb_gt | right; apply Z.leb_gt]; lia.
Qed.

Lemma relay_surfaces_backend_failure_witness :
  ChatRoute.run Scenario.agent_timeout Scenario.proc Scenario.first_turn
  = ([(ChatRoute.chat_url Scenario.proc, ChatRoute.forwarded Scenario.first_turn)],
     inr {| init_status := 500; payload := JError (lit "LLM timeout") |}).
Proof.
  destruct (relay_surfaces_backend_failure Scenario.agent_timeout Scenario.proc
              Scenario.first_turn
              {| status := 500; text := lit "LLM timeout"; json := None |}
              eq_refl eq_refl) as [Hsent [Hanswer _]].
  rewrite (surjective_pairing (ChatRoute.run _ _ _)), Hsent.
  rewrite Hanswer by (simpl; lia). reflexivity.
Defined.

(** ** Sessions with overlapping handlers *)

(** A file selection with files: the queue is set, the request is sent and
    the handler waits; what it does with a failed answer changes no
    state. *)
Lemma advance_upload uuids picked pane others :
  picked <> [] ->
  exists k, Overlap.advance uuids (ChatPane.onFilesChanged picked) pane others
  = ({| Overlap.now := ChatPane.with_files picked (Overlap.now pane);
          Overlap.drawn := Overlap.drawn pane;
          Overlap.waiting := others ++ [Overlap.ForFiles k] |},
       [ChatPane.FilesRequest picked])
  /\ tame uuids (Overlap.ForFiles k)
  /\ forall answer c, failed answer = true ->
       interp_sync (Overlap.local uuids) (k answer) c
       = (c,
          match answer with
          | Resolved _ => [ChatPane.ErrorToast (lit "Upload failed")]
          | Rejected => []
          end,
          Settled match answer with
                  | Resolved _ => inr tt
                  | Rejected => inl FetchFailed
                  end).
Proof.
  intros Hne. destruct picked as [| f fs]; [congruence |].
  unfold Overlap.advance, ChatPane.onFilesChanged. simpl.
  eexists. split; [reflexivity |]. split.
  - intros answer c. destruct answer as [| [st tx js]]; simpl.
    + repeat eexists.
    + unfold ok, res_json. simpl.
      destruct ((200 <=? st) && (st <=? 299))%Z; simpl.
      * destruct js as [[| u urls] |]; simpl; repeat eexists.
      * repeat eexists.
  - intros answer c Hf. destruct answer as [| [st tx js]]; simpl.
    + destruct c; reflexivity.
    + unfold failed, ok in *. simpl in *. apply negb_true_iff in Hf. rewrite Hf. simpl.
      destruct c; reflexivity.
Qed.








Lemma run_app uuids evs1 evs2 :
  forall pane,
    Overlap.run uuids (evs1 ++ evs2) pane
    = (fst (Overlap.run uuids evs2 (fst (Overlap.run uuids evs1 pane))),
       snd (Overlap.run uuids evs1 pane)
       ++ snd (Overlap.run uuids evs2 (fst (Overlap.run uuids evs1 pane)))).
Proof.
  induction evs1 as [| ev rest IH]; intros pane; simpl.
  - now destruct (Overlap.run uuids evs2 pane).
  - destruct (Overlap.step uuids ev pane) as [p1 t1]. rewrite IH.
    destruct (Overlap.run uuids rest p1) as [p2 t2]. simpl.
    now rewrite app_assoc.
Qed.


(** C4, as the code has it: picking a batch of files sets the attachment
    queue to that batch, leaves the rest of the state (the input buffer
    with it) as it is and sends the upload; when that upload fails, at
    whatever later moment and whatever other handlers did in between, the
    failure changes no state: the input buffer, the log, [typing] and the
    attachment queue are what they were when the answer arrived, so the
    upload never clears the queue.  The notice "Upload failed" is raised
    when the upload was answered with a status that is not 2xx; when the
    request could not be sent no notice is raised. *)
Theorem failed_upload_changes_no_state
    (uuids : nat -> jsstring) (pane : Overlap.Pane) (picked : list File) :
  picked <> [] ->
  exists k,
    Overlap.step uuids (Overlap.FilesPicked picked) pane
    = ({| Overlap.now := ChatPane.with_files picked (Overlap.now pane);
          Overlap.drawn := Overlap.drawn pane;
          Overlap.waiting := Overlap.waiting pane ++ [Overlap.ForFiles k] |},
       [ChatPane.FilesRequest picked])
    /\ forall (later : Overlap.Pane) (i : nat) (answer : FetchResult (list jsstring)),
         nth_error (Overlap.waiting later) i = Some (Overlap.ForFiles k) ->
         failed answer = true ->
         Overlap.step uuids (Overlap.FilesAnswer i answer) later
         = ({| Overlap.now := Overlap.now later;
               Overlap.drawn := Overlap.drawn later;
               Overlap.waiting := Overlap.without i (Overlap.waiting later) |},
            match answer with
            | Resolved _ => [ChatPane.ErrorToast (lit "Upload failed")]
            | Rejected => []
            end).
Proof.
  intros Hne.
  destruct (advance_upload uuids picked pane (Overlap.waiting pane) Hne)
    as [k [Hstart [_ Hfail]]].
  exists k. split; [exact Hstart |].
  intros later i answer Hn Hf. simpl. rewrite Hn.
  unfold Overlap.advance. rewrite (Hfail answer _ Hf). simpl.
  now rewrite !app_nil_r.
Qed.

Lemma failed_upload_changes_no_state_witness :
  let '(pane, seen) :=
    Overlap.run Cases.uuids Cases.overlapped (Overlap.start Scenario.typed) in
  seen = [ChatPane.DefaultPrevented; ChatPane.ChatRequest Scenario.first_turn;
          ChatPane.FilesRequest [Scenario.a_png];
          ChatPane.ErrorToast (lit "Upload failed")]
  /\ ChatPane.files (Overlap.now pane) = []
  /\ ChatPane.input (Overlap.now pane) = []
  /\ map content (ChatPane.messages (Overlap.now pane))
     = [lit "Rebalance my portfolio"; lit "Done"]
  /\ Overlap.waiting pane = [].
Proof.
  destruct (failed_upload_changes_no_state Cases.uuids
              (fst (Overlap.step Cases.uuids Overlap.Submitted
                      (Overlap.start Scenario.typed)))
              [Scenario.a_png]) as [k [Hstart Hfail]]; [discriminate |].
  change Cases.overlapped
    with ([Overlap.Submitted; Overlap.FilesPicked [Scenario.a_png];
           Overlap.ChatAnswer 0 Cases.replied]
          ++ [Overlap.FilesAnswer 0 Cases.refused]).
  rewrite run_app.
  set (p3 := fst (Overlap.run Cases.uuids
                    [Overlap.Submitted; Overlap.FilesPicked [Scenario.a_png];
                     Overlap.ChatAnswer 0 Cases.replied]
                    (Overlap.start Scenario.typed))).
  assert (Hk : nth_error (Overlap.waiting p3) 0 = Some (Overlap.ForFiles k)).
  { vm_compute in Hstart. injection Hstart as <-. reflexivity. }
  cbn [Overlap.run]. rewrite (Hfail p3 0 Cases.refused Hk eq_refl).
  vm_compute. repeat split.
Defined.


(** ** Paths *)

Lemma normalizeString_app allow l1 :
  forall res l2,
    Path.normalizeString allow res (l1 ++ l2)
    = Path.normalizeString allow (Path.normalizeString allow res l1) l2.
Proof.
  induction l1 as [| seg rest IH]; intros res l2; simpl; [reflexivity |].
  destruct (JsText.eqb seg [] || JsText.eqb seg Path.dot); [apply IH |].
  destruct (JsText.eqb seg Path.dotdot); [| apply IH].
  destruct res as [| top below]; [apply IH |].
  destruct (JsText.eqb top Path.dotdot); apply IH.
Qed.

Lemma normalizeString_plain allow res seg :
  plain seg = true -> Path.normalizeString allow res [seg] = seg :: res.
Proof.
  unfold plain. rewrite !andb_true_iff, !negb_true_iff. intros [[[H0 H1] H2] _].
  cbn [Path.normalizeString]. now rewrite H0, H1, H2.
Qed.

Lemma settled_dotdots allow (below : list jsstring) :
  forallb (JsText.eqb Path.dotdot) below = true -> allow = true ->
  settled allow below = true.
Proof.
  intros H ->. induction below as [| x l IH]; [reflexivity |].
  cbn [forallb] in H. apply andb_true_iff in H as [Hx Hl].
  apply JsText_eqb_eq in Hx. subst x. cbn [settled].
  now rewrite JsText_eqb_refl.
Qed.

Lemma normalizeString_settled allow segments :
  forall res,
    settled allow res = true ->
    forallb no_slash segments = true ->
    settled allow (Path.normalizeString allow res segments) = true.
Proof.
  induction segments as [| seg rest IH]; intros res Hres Hsegs; [exact Hres |].
  cbn [forallb] in Hsegs. apply andb_true_iff in Hsegs as [Hseg Hrest].
  cbn [Path.normalizeString].
  destruct (JsText.eqb seg []) eqn:H0; cbn [orb]; [now apply IH |].
  destruct (JsText.eqb seg Path.dot) eqn:H1; [now apply IH |].
  destruct (JsText.eqb seg Path.dotdot) eqn:H2.
  - destruct res as [| top below].
    + apply IH; [| exact Hrest]. destruct allow; reflexivity.
    + cbn [settled] in Hres. destruct (JsText.eqb top Path.dotdot) eqn:Ht.
      * apply IH; [| exact Hrest]. destruct allow; cbn [settled]; rewrite ?Ht.
        -- rewrite JsText_eqb_refl. cbn [andb forallb].
           rewrite JsText_eqb_eq in Ht. subst top. now rewrite JsText_eqb_refl.
        -- exact Hres.
      * apply IH; [| exact Hrest]. now apply andb_true_iff in Hres as [_ Hres].
  - apply IH; [| exact Hrest]. cbn [settled]. rewrite H2, Hres, andb_true_r.
    unfold plain. now rewrite H0, H1, H2, Hseg.
Qed.

Lemma settled_middle allow pre seg acc :
  settled allow (pre ++ seg :: acc) = true ->
  plain seg = true
  \/ (seg = Path.dotdot /\ allow = true /\ forallb (JsText.eqb Path.dotdot) acc = true).
Proof.
  induction pre as [| p pre IH]; cbn [app settled].
  - destruct (JsText.eqb seg Path.dotdot) eqn:H2.
    + rewrite andb_true_iff. intros [Ha Hb]. right.
      apply JsText_eqb_eq in H2. auto.
    + rewrite andb_true_iff. intros [Ha _]. now left.
  - destruct (JsText.eqb p Path.dotdot).
    + rewrite andb_true_iff, forallb_app. intros [Ha Hb].
      apply andb_true_iff in Hb as [_ Hb]. cbn [forallb] in Hb.
      apply andb_true_iff in Hb as [Hs Hacc]. apply JsText_eqb_eq in Hs.
      right. auto.
    + rewrite andb_true_iff. intros [_ H]. now apply IH.
Qed.

Lemma normalizeString_replay allow l :
  forall acc,
    settled allow (rev l ++ acc) = true ->
    Path.normalizeString allow acc l = rev l ++ acc.
Proof.
  induction l as [| seg rest IH]; intros acc H; [reflexivity |].
  cbn [rev] in *. rewrite <- app_assoc in *. cbn [app] in *.
  destruct (settled_middle allow (rev rest) seg acc H) as [Hp | [-> [-> Hacc]]].
  - change (seg :: rest) with ([seg] ++ rest).
    rewrite normalizeString_app, (normalizeString_plain allow acc seg Hp).
    now apply IH.
  - cbn [Path.normalizeString].
    change (JsText.eqb Path.dotdot [] || JsText.eqb Path.dotdot Path.dot) with false.
    rewrite JsText_eqb_refl. cbv iota. destruct acc as [| top below].
    + now apply IH.
    + cbn [forallb] in Hacc. apply andb_true_iff in Hacc as [Ht _].
      apply JsText_eqb_eq in Ht. subst top. rewrite JsText_eqb_refl. now apply IH.
Qed.

Lemma normalizeString_replay_all allow (res : list jsstring) :
  settled allow res = true -> Path.normalizeString allow [] (rev res) = res.
Proof.
  intros H. rewrite normalizeString_replay; rewrite rev_involutive, app_nil_r;
    [reflexivity | exact H].
Qed.

Lemma split_aux_snoc (sep : N) (seg : jsstring) (s : jsstring) :
  forall cur,
    forallb (fun c => negb (c =? sep)%N) seg = true ->
    JsText.split_aux sep cur (s ++ [sep] ++ seg) = JsText.split_aux sep cur s ++ [seg].
Proof.
  induction s as [| c r IH]; intros cur Hseg.
  - rewrite app_nil_l, split_aux_sep. simpl.
    rewrite <- (app_nil_r seg) at 1. rewrite (split_aux_app sep seg [] [] Hseg).
    simpl. now rewrite app_nil_r, rev_involutive.
  - change ((c :: r) ++ [sep] ++ seg) with (c :: (r ++ [sep] ++ seg)).
    cbn [JsText.split_aux]. destruct (c =? sep)%N.
    + rewrite (IH [] Hseg). reflexivity.
    + now apply IH.
Qed.

Lemma join_snoc (sep : jsstring) (l : list jsstring) (x : jsstring) :
  l <> [] -> join sep (l ++ [x]) = join sep l ++ sep ++ x.
Proof.
  induction l as [| y l IH]; intros Hne; [congruence |].
  destruct l as [| z l]; [reflexivity |].
  change (join sep ((y :: z :: l) ++ [x])) with (y ++ sep ++ join sep ((z :: l) ++ [x])).
  rewrite IH by discriminate.
  change (join sep (y :: z :: l)) with (y ++ sep ++ join sep (z :: l)).
  now rewrite <- !app_assoc.
Qed.


Lemma settled_no_slash allow res :
  settled allow res = true -> forallb no_slash res = true.
Proof.
  induction res as [| top below IH]; [reflexivity |].
  cbn [settled forallb]. destruct (JsText.eqb top Path.dotdot) eqn:Ht.
  - rewrite andb_true_iff. intros [Ha Hb]. apply JsText_eqb_eq in Ht. subst top.
    apply andb_true_iff. split; [reflexivity |].
    apply IH. now apply settled_dotdots.
  - rewrite andb_true_iff. intros [Hp Hs]. rewrite (IH Hs), andb_true_r.
    unfold plain in Hp. now apply andb_true_iff in Hp as [_ Hp].
Qed.

Lemma settled_no_empty allow res :
  settled allow res = true -> forallb truthy res = true.
Proof.
  induction res as [| top below IH]; [reflexivity |].
  cbn [settled forallb]. destruct (JsText.eqb top Path.dotdot) eqn:Ht.
  - rewrite andb_true_iff. intros [Ha Hb]. apply JsText_eqb_eq in Ht. subst top.
    apply andb_true_iff. split; [reflexivity |].
    apply IH. now apply settled_dotdots.
  - rewrite andb_true_iff. intros [Hp Hs]. rewrite (IH Hs), andb_true_r.
    unfold plain in Hp. rewrite !andb_true_iff in Hp. destruct Hp as [[[H0 _] _] _].
    destruct top; [discriminate | reflexivity].
Qed.

(** The first code unit of joined segments is that of the first segment. *)
Lemma join_head (l : list jsstring) :
  l <> [] -> forallb truthy l = true -> forallb no_slash l = true ->
  exists c r, join [Path.slash] l = c :: r /\ (c =? Path.slash)%N = false.
Proof.
  destruct l as [| x l]; [congruence |]. intros _ Ht Hs.
  cbn [forallb] in Ht, Hs. apply andb_true_iff in Ht as [Hx _].
  apply andb_true_iff in Hs as [Hn _].
  destruct x as [| c r]; [discriminate |].
  cbn [no_slash forallb] in Hn. apply andb_true_iff in Hn as [Hc _].
  apply negb_true_iff in Hc.
  destruct l as [| y l]; [now exists c, r |].
  exists c. eexists. split; [reflexivity | exact Hc].
Qed.

Lemma plain_last (seg : jsstring) :
  plain seg = true ->
  exists pre d, seg = pre ++ [d] /\ (d =? Path.slash)%N = false.
Proof.
  unfold plain. rewrite !andb_true_iff. intros [[[H0 _] _] Hs].
  destruct (exists_last (l := seg)) as [pre [d E]].
  { intros ->. discriminate. }
  exists pre, d. split; [exact E |].
  rewrite E in Hs. unfold no_slash in Hs. rewrite forallb_app in Hs.
  apply andb_true_iff in Hs as [_ Hs]. cbn [forallb] in Hs.
  apply andb_true_iff in Hs as [Hd _]. now apply negb_true_iff in Hd.
Qed.

Lemma normalize_parts (c : N) (r : jsstring) (d : N) (pre : jsstring)
    (res : list jsstring) :
  c :: r = pre ++ [d] ->
  (d =? Path.slash)%N = false ->
  Path.normalizeString (negb (c =? Path.slash)%N) [] (JsText.split Path.slash (c :: r))
  = res ->
  join [Path.slash] (rev res) <> [] ->
  Path.normalize (c :: r)
  = (if (c =? Path.slash)%N then [Path.slash] else []) ++ join [Path.slash] (rev res).
Proof.
  intros E Hd Hres Hne.
  assert (Hlast : match rev (c :: r) with
                  | [] => false
                  | e :: _ => (e =? Path.slash)%N
                  end = false)
    by (rewrite E, rev_app_distr; exact Hd).
  unfold Path.normalize. cbv zeta. rewrite Hres, Hlast.
  destruct (join [Path.slash] (rev res)) as [| k kept]; [congruence |].
  now rewrite app_nil_r.
Qed.

Lemma join_nonempty (l : list jsstring) :
  l <> [] -> forallb truthy l = true -> join [Path.slash] l <> [].
Proof.
  destruct l as [| x l]; [congruence |]. intros _ H. cbn [forallb] in H.
  apply andb_true_iff in H as [Hx _]. destruct x as [| c r]; [discriminate |].
  destruct l; discriminate.
Qed.

Lemma split_joined_snoc (l : list jsstring) (seg : jsstring) :
  l <> [] -> forallb no_slash l = true -> no_slash seg = true ->
  JsText.split_aux Path.slash [] (join [Path.slash] l ++ [Path.slash] ++ seg)
  = l ++ [seg].
Proof.
  intros Hne Hl Hseg. rewrite (split_aux_snoc Path.slash seg _ [] Hseg).
  destruct l as [| x r]; [congruence |].
  now rewrite (split_aux_join Path.slash x r [] Hl).
Qed.

Lemma path_join_inside (dir seg : jsstring) :
  normal_dir dir -> plain seg = true ->
  FilesRoute.path_join [dir; seg] = dir ++ [Path.slash] ++ seg.
Proof.
  intros [isAbsolute [res [Hne [Hres ->]]]] Hseg.
  assert (Hrev : rev res <> []).
  { intros E. apply Hne. now rewrite <- (rev_involutive res), E. }
  assert (Ht : forallb truthy (rev res) = true)
    by (rewrite forallb_rev; eapply settled_no_empty; eassumption).
  assert (Hs : forallb no_slash (rev res) = true)
    by (rewrite forallb_rev; eapply settled_no_slash; eassumption).
  destruct (join_head (rev res) Hrev Ht Hs) as [c [r [Hj Hc]]].
  destruct (plain_last seg Hseg) as [pre [d [Epre Hd]]].
  assert (Hseg' := Hseg). unfold plain in Hseg'. rewrite !andb_true_iff in Hseg'.
  destruct Hseg' as [[[H0 _] _] Hns].
  assert (Hseg_t : truthy seg = true) by (destruct seg; [discriminate | reflexivity]).
  unfold FilesRoute.path_join, Path.join.
  set (dir := (if isAbsolute then [Path.slash] else []) ++ join [Path.slash] (rev res)).
  assert (Hdir : exists c0 r0, dir = c0 :: r0 /\ (c0 =? Path.slash)%N = isAbsolute).
  { unfold dir. destruct isAbsolute.
    - exists Path.slash. eexists. split; reflexivity.
    - exists c, r. split; [exact Hj | exact Hc]. }
  destruct Hdir as [c0 [r0 [Edir Hc0]]].
  assert (Hdir_t : truthy dir = true) by now rewrite Edir.
  cbn [filter]. rewrite Hdir_t, Hseg_t. cbn [join].
  assert (Esplit : JsText.split Path.slash (dir ++ [Path.slash] ++ seg)
                   = (if isAbsolute then [[]] else []) ++ rev res ++ [seg]).
  { unfold JsText.split, dir. destruct isAbsolute.
    - rewrite <- app_assoc, split_aux_sep.
      now rewrite (split_joined_snoc (rev res) seg Hrev Hs Hns).
    - now rewrite app_nil_l, (split_joined_snoc (rev res) seg Hrev Hs Hns). }
  assert (Enorm : forall allow, allow = negb isAbsolute ->
            Path.normalizeString allow []
              ((if isAbsolute then [[]] else []) ++ rev res ++ [seg])
            = seg :: res).
  { intros allow ->.
    assert (Path.normalizeString (negb isAbsolute) [] (rev res ++ [seg]) = seg :: res).
    { rewrite normalizeString_app, (normalizeString_replay_all _ res Hres).
      now apply normalizeString_plain. }
    destruct isAbsolute; [| exact H]. exact H. }
  assert (Ewhole : exists pre', dir ++ [Path.slash] ++ seg = pre' ++ [d]).
  { exists (dir ++ [Path.slash] ++ pre). rewrite Epre. now rewrite <- !app_assoc. }
  destruct Ewhole as [pre' Ewhole].
  assert (Ecr : dir ++ [Path.slash] ++ seg = c0 :: (r0 ++ [Path.slash] ++ seg))
    by (now rewrite Edir).
  rewrite Ecr. rewrite Ecr in Esplit, Ewhole.
  rewrite (normalize_parts c0 _ d pre' (seg :: res) Ewhole Hd).
  - rewrite Hc0. cbn [rev]. rewrite (join_snoc _ _ _ Hrev).
    rewrite <- Ecr. unfold dir. now rewrite <- !app_assoc.
  - rewrite Esplit. apply Enorm. now rewrite Hc0.
  - cbn [rev]. rewrite (join_snoc _ _ _ Hrev).
    destruct (join [Path.slash] (rev res)); discriminate.
Qed.

Lemma safeName_plain (now : Z) (file : File) :
  plain (FilesRoute.safeName now file) = true.
Proof.
  pose proof (safeName_has_hyphen now file) as Hh.
  assert (Hneq : forall x, ~ In 45%N x ->
                   JsText.eqb (FilesRoute.safeName now file) x = false).
  { intros x Hx. destruct (JsText.eqb (FilesRoute.safeName now file) x) eqn:E;
      [| reflexivity].
    apply JsText_eqb_eq in E. rewrite E in Hh. contradiction. }
  unfold plain.
  rewrite (Hneq []), (Hneq Path.dot), (Hneq Path.dotdot).
  - apply safeName_no_slash.
  - cbn [In Path.dotdot]. intros [H | [H | H]]; solve [discriminate H | exact H].
  - cbn [In Path.dot]. intros [H | H]; solve [discriminate H | exact H].
  - intros H; exact H.
Qed.

Lemma uploads_dir_normal (proc : Process) :
  normal_dir (FilesRoute.path_join [cwd proc; lit "public"; lit "uploads"]).
Proof.
  unfold FilesRoute.path_join, Path.join.
  destruct (cwd proc) as [| c r] eqn:Ecwd.
  - exists false, [lit "uploads"; lit "public"].
    split; [discriminate |]. split; vm_compute; reflexivity.
  - set (stack := Path.normalizeString (negb (c =? Path.slash)%N) []
                    (JsText.split Path.slash (c :: r))).
    assert (Hstack : settled (negb (c =? Path.slash)%N) stack = true).
    { apply normalizeString_settled; [reflexivity |].
      apply (split_aux_pieces Path.slash (c :: r) []). reflexivity. }
    exists (c =? Path.slash)%N, (lit "uploads" :: lit "public" :: stack).
    split; [discriminate |]. split.
    + cbn [settled].
      change (JsText.eqb (lit "uploads") Path.dotdot) with false.
      change (JsText.eqb (lit "public") Path.dotdot) with false.
      change (plain (lit "uploads")) with true.
      change (plain (lit "public")) with true.
      exact Hstack.
    + assert (Eparts : (c :: r) ++ [Path.slash] ++ lit "public" ++ [Path.slash] ++ lit "uploads"
                       = c :: (r ++ lit "/public/uploads")) by reflexivity.
      change (Path.normalize (c :: (r ++ lit "/public/uploads"))
              = (if (c =? Path.slash)%N then [Path.slash] else [])
                ++ join [Path.slash] (rev (lit "uploads" :: lit "public" :: stack))).
      apply (normalize_parts c _ 115%N (c :: (r ++ lit "/public/upload"))).
      * cbn [app]. f_equal. now rewrite <- app_assoc.
      * reflexivity.
      * rewrite <- Eparts.
        change ((c :: r) ++ [Path.slash] ++ lit "public" ++ [Path.slash] ++ lit "uploads")
          with ((c :: r) ++ [Path.slash] ++ (lit "public" ++ [Path.slash] ++ lit "uploads")).
        unfold JsText.split.
        rewrite (app_assoc (c :: r) [Path.slash]), app_assoc.
        rewrite <- (app_assoc (c :: r) [Path.slash] (lit "public")).
        rewrite (split_aux_snoc Path.slash (lit "uploads")) by reflexivity.
        rewrite (split_aux_snoc Path.slash (lit "public")) by reflexivity.
        rewrite !normalizeString_app. fold (JsText.split Path.slash (c :: r)).
        fold stack.
        rewrite (normalizeString_plain _ stack (lit "public")) by reflexivity.
        now rewrite normalizeString_plain.
      * apply join_nonempty.
        -- cbn [rev]. destruct (rev stack); discriminate.
        -- rewrite forallb_rev. cbn [forallb].
           now rewrite (settled_no_empty _ _ Hstack).
Qed.

Lemma safeName_inside (dir : jsstring) (now : Z) (file : File) :
  normal_dir dir ->
  inside dir (FilesRoute.path_join [dir; FilesRoute.safeName now file]).
Proof.
  intros Hdir. exists (FilesRoute.safeName now file).
  split; [apply (path_join_inside dir _ Hdir), safeName_plain |].
  split; [apply safeName_no_slash |].
  pose proof (safeName_has_hyphen now file) as H.
  split; intros E; rewrite E in H; simpl in H;
    repeat (destruct H as [H | H]; [discriminate |]); exact H.
Qed.

Lemma for_files_writes_inside (fw : FilesRoute.World) (dir : jsstring)
    (files : list File) :
  normal_dir dir ->
  forall urls st,
    Forall (inside dir)
      (snd (fst (interp (FilesRoute.handle fw) (FilesRoute.for_files dir files urls) st))).
Proof.
  intros Hdir.
  induction files as [| file rest IH]; intros urls st; simpl; [constructor |].
  destruct (FilesRoute.write_ok fw (FilesRoute.writes st)); simpl.
  - match goal with
    | |- context [interp ?h (FilesRoute.for_files ?d rest ?acc) ?st'] =>
        specialize (IH acc st');
        destruct (interp h (FilesRoute.for_files d rest acc) st') as [[s2 t] r]
    end.
    simpl in *. constructor; [now apply safeName_inside | exact IH].
  - constructor.
Qed.

(** X11: whatever the working directory, the names of the uploaded files,
    the clock and the fate of the writes, every path the endpoint writes is
    the uploads directory [path.join(process.cwd(), "public", "uploads")],
    a slash, and one segment that holds no slash and is neither [.] nor
    [..]: no file name can make the endpoint write outside the uploads
    directory.  With the root as working directory the uploads directory is
    [/public/uploads]. *)
Theorem uploads_stay_in_their_directory
    (fw : FilesRoute.World) (proc : Process) (files : list File)
    (st : FilesRoute.Storage) :
  Forall (inside (FilesRoute.path_join [cwd proc; lit "public"; lit "uploads"]))
    (snd (fst (FilesRoute.run fw proc files st)))
  /\ FilesRoute.path_join [lit "/"; lit "public"; lit "uploads"] = lit "/public/uploads".
Proof.
  split; [| vm_compute; reflexivity].
  unfold FilesRoute.run, FilesRoute.POST.
  pose proof (uploads_dir_normal proc) as Hdir.
  set (dir := FilesRoute.path_join _) in *.
  simpl interp. destruct (FilesRoute.mkdir_ok fw); [| constructor].
  cbn [bind interp]. rewrite interp_bind.
  pose proof (for_files_writes_inside fw dir files Hdir [] st) as H.
  destruct (interp (FilesRoute.handle fw) (FilesRoute.for_files dir files []) st)
    as [[s1 t1] [e | urls]]; simpl in *.
  - exact H.
  - rewrite ?NextResponse_json_run. simpl. now rewrite app_nil_r.
Qed.


(** ** The disk *)

Lemma JsText_eqb_neq (a b : jsstring) : a <> b -> JsText.eqb a b = false.
Proof.
  intros H. destruct (JsText.eqb a b) eqn:E; [| reflexivity].
  apply JsText_eqb_eq in E. contradiction.
Qed.

Lemma read_write_same (path : jsstring) (data : list N) (disk : FilesRoute.Disk) :
  FilesRoute.read path (FilesRoute.write path data disk) = Some data.
Proof.
  unfold FilesRoute.read, FilesRoute.write. cbn [find fst].
  now rewrite JsText_eqb_refl.
Qed.

Lemma read_write_other (path other : jsstring) (data : list N)
    (disk : FilesRoute.Disk) :
  path <> other ->
  FilesRoute.read other (FilesRoute.write path data disk) = FilesRoute.read other disk.
Proof.
  intros Hne. unfold FilesRoute.read, FilesRoute.write. cbn [find fst].
  rewrite (JsText_eqb_neq path other Hne). f_equal.
  induction disk as [| e rest IH]; [reflexivity |].
  cbn [filter find]. destruct (JsText.eqb (fst e) path) eqn:Ep; cbn [negb].
  - apply JsText_eqb_eq in Ep. rewrite Ep, (JsText_eqb_neq path other Hne). exact IH.
  - cbn [find]. destruct (JsText.eqb (fst e) other); [reflexivity | exact IH].
Qed.

Lemma read_write_all_other (files : list (jsstring * list N)) (other : jsstring) :
  forall disk,
    ~ In other (map fst files) ->
    FilesRoute.read other (write_all files disk) = FilesRoute.read other disk.
Proof.
  induction files as [| e rest IH]; intros disk Hout; [reflexivity |].
  cbn [write_all fold_left]. fold (write_all rest (FilesRoute.write (fst e) (snd e) disk)).
  rewrite IH by (intros H; apply Hout; now right).
  apply read_write_other. intros E. apply Hout. now left.
Qed.

Lemma read_write_all_in (files : list (jsstring * list N)) (path : jsstring)
    (data : list N) :
  forall disk,
    NoDup (map fst files) ->
    In (path, data) files ->
    FilesRoute.read path (write_all files disk) = Some data.
Proof.
  induction files as [| e rest IH]; intros disk Hnd Hin; [destruct Hin |].
  cbn [map] in Hnd. apply NoDup_cons_iff in Hnd as [Hfresh Hnd].
  cbn [write_all fold_left]. fold (write_all rest (FilesRoute.write (fst e) (snd e) disk)).
  destruct Hin as [-> | Hin].
  - cbn [fst snd] in *. rewrite read_write_all_other by exact Hfresh.
    apply read_write_same.
  - now apply IH.
Qed.

(** The loop: the files whose writes succeed are written in order, and the
    first failing write ends it. *)
Lemma for_files_written (fw : FilesRoute.World) (dir : jsstring) (files : list File) :
  forall (j : nat) (urls : list jsstring) (st : FilesRoute.Storage),
    j <= List.length files ->
    (forall k, k < j -> FilesRoute.write_ok fw (FilesRoute.writes st + k) = true) ->
    (j < List.length files -> FilesRoute.write_ok fw (FilesRoute.writes st + j) = false) ->
    let written := map (stored fw dir) (combine (seq (FilesRoute.readings st) j) files) in
    let attempts := if j <? List.length files then S j else j in
    let '(st', paths, r) :=
      interp (FilesRoute.handle fw) (FilesRoute.for_files dir files urls) st in
    FilesRoute.disk st' = write_all written (FilesRoute.disk st)
    /\ paths = map fst written
    /\ (j < List.length files -> r = inl FsFailed)
    /\ FilesRoute.readings st' = FilesRoute.readings st + attempts
    /\ FilesRoute.writes st' = FilesRoute.writes st + attempts.
Proof.
  induction files as [| file rest IH]; intros j urls st Hj Hok Hko.
  - simpl in Hj. assert (j = 0) by lia. subst j. simpl.
    repeat split; lia.
  - destruct j as [| j].
    + simpl in *. rewrite Nat.add_0_r in Hko. rewrite Hko by lia. simpl.
      repeat split; lia.
    + simpl interp.
      assert (H0 : FilesRoute.write_ok fw (FilesRoute.writes st) = true).
      { rewrite <- (Nat.add_0_r (FilesRoute.writes st)). apply Hok. lia. }
      rewrite H0. simpl.
      match goal with
      | |- context [interp ?h (FilesRoute.for_files ?d rest ?acc) ?st'] =>
          specialize (IH j acc st');
          destruct (interp h (FilesRoute.for_files d rest acc) st') as [[s2 t] r]
      end.
      simpl in IH. destruct IH as [Hd [Hp [Hr [Hrd Hwr]]]].
      * simpl in Hj. lia.
      * intros k Hk. replace (S (FilesRoute.writes st + k))
          with (FilesRoute.writes st + S k) by lia. apply Hok. lia.
      * intros Hlt. replace (S (FilesRoute.writes st + j))
          with (FilesRoute.writes st + S j) by lia. apply Hko. simpl. lia.
      * simpl. rewrite Hd, Hp, Hrd, Hwr.
        change (S j <? S (List.length rest)) with (j <? List.length rest).
        repeat split; try (destruct (j <? List.length rest); lia).
        intros Hlt. apply Hr. lia.
Qed.

Lemma NoDup_map_prefix {A} (g : A -> jsstring) (p q : jsstring) (l : list A) :
  NoDup (map (fun x => p ++ g x) l) -> NoDup (map (fun x => q ++ g x) l).
Proof.
  induction l as [| x l IH]; cbn [map]; intros H; [constructor |].
  apply NoDup_cons_iff in H as [Hx Hl]. constructor; [| now apply IH].
  intros Hin. apply Hx. apply in_map_iff in Hin as [y [E Hy]].
  apply app_inv_head in E. apply in_map_iff. exists y. now rewrite E.
Qed.



(** The handler, once the directory is made, is the loop, its state and
    its writes. *)
Lemma run_through_loop (fw : FilesRoute.World) (proc : Process) (files : list File)
    (st : FilesRoute.Storage) :
  FilesRoute.mkdir_ok fw = true ->
  fst (FilesRoute.run fw proc files st)
  = fst (interp (FilesRoute.handle fw)
           (FilesRoute.for_files
              (FilesRoute.path_join [cwd proc; lit "public"; lit "uploads"]) files [])
           st).
Proof.
  intros Hm. unfold FilesRoute.run, FilesRoute.POST.
  set (dir := FilesRoute.path_join _).
  simpl interp. rewrite Hm. cbn [bind interp]. rewrite interp_bind.
  destruct (interp (FilesRoute.handle fw) (FilesRoute.for_files dir files []) st)
    as [[s1 t1] [e | urls]]; [reflexivity |].
  rewrite ?NextResponse_json_run. simpl. now rewrite app_nil_r.
Qed.

(** X24: when the directory exists, every write of a batch succeeds and
    the clock readings taken for the batch are not negative and pairwise
    different, every file of the batch is on the disk: its bytes are read
    back under the uploads directory and its stored name, the very name
    that ends the URL returned for that file; every other path holds what
    it held.  One clock reading and one write were made per file. *)
Theorem successful_batch_stores_every_file
    (fw : FilesRoute.World) (proc : Process) (files : list File)
    (st : FilesRoute.Storage) :
  FilesRoute.mkdir_ok fw = true ->
  (forall k, k < List.length files ->
             FilesRoute.write_ok fw (FilesRoute.writes st + k) = true) ->
  (forall k, FilesRoute.readings st <= k < FilesRoute.readings st + List.length files ->
             (0 <= FilesRoute.clock fw k)%Z) ->
  (forall i j,
      FilesRoute.readings st <= i < FilesRoute.readings st + List.length files ->
      FilesRoute.readings st <= j < FilesRoute.readings st + List.length files ->
      FilesRoute.clock fw i = FilesRoute.clock fw j -> i = j) ->
  let uploadsDir := FilesRoute.path_join [cwd proc; lit "public"; lit "uploads"] in
  let batch := combine (seq (FilesRoute.readings st) (List.length files)) files in
  let name_of := fun kf : nat * File =>
    FilesRoute.safeName (FilesRoute.clock fw (fst kf)) (snd kf) in
  let '(st', paths, r) := FilesRoute.run fw proc files st in
  r = inr {| init_status := 200;
             payload := JUrls (map (fun kf => lit "/uploads/" ++ name_of kf) batch) |}
  /\ paths = map (fun kf => uploadsDir ++ lit "/" ++ name_of kf) batch
  /\ (forall kf, In kf batch ->
        FilesRoute.read (uploadsDir ++ lit "/" ++ name_of kf) (FilesRoute.disk st')
        = Some (bytes (snd kf)))
  /\ (forall other, ~ In other paths ->
        FilesRoute.read other (FilesRoute.disk st')
        = FilesRoute.read other (FilesRoute.disk st))
  /\ FilesRoute.readings st' = FilesRoute.readings st + List.length files
  /\ FilesRoute.writes st' = FilesRoute.writes st + List.length files.
Proof.
  intros Hm Hw Hpos Hinj. cbv zeta.
  pose proof (upload_all_written fw proc files st Hm Hw) as Hres.
  pose proof (uploads_dir_normal proc) as Hdir.
  pose proof (run_through_loop fw proc files st Hm) as Hrun.
  set (dir := FilesRoute.path_join _) in *.
  pose proof (for_files_written fw dir files (List.length files) [] st (le_n _) Hw) as H.
  cbv zeta in H. rewrite Nat.ltb_irrefl in H.
  set (batch := combine (seq (FilesRoute.readings st) (List.length files)) files) in *.
  assert (Epaths : map fst (map (stored fw dir) batch)
                   = map (fun kf : nat * File =>
                            dir ++ lit "/"
                            ++ FilesRoute.safeName (FilesRoute.clock fw (fst kf)) (snd kf))
                       batch).
  { rewrite map_map. apply map_ext. intros kf. unfold stored. cbn [fst].
    apply (path_join_inside dir _ Hdir), safeName_plain. }
  destruct (interp (FilesRoute.handle fw) (FilesRoute.for_files dir files []) st)
    as [[s1 t1] r1].
  destruct (FilesRoute.run fw proc files st) as [[st' paths] r].
  cbn [fst snd] in Hres, Hrun. injection Hrun as -> ->.
  destruct H as [Hd [Hp [_ [Hrd Hwr]]]]; [lia |].
  rewrite Epaths in Hp.
  split; [exact Hres |]. split; [exact Hp |]. split; [| split; [| split; assumption]].
  - intros kf Hin. rewrite Hd. apply read_write_all_in.
    + rewrite Epaths.
      rewrite (map_ext _ (fun kf : nat * File =>
                 (dir ++ lit "/")
                 ++ FilesRoute.safeName (FilesRoute.clock fw (fst kf)) (snd kf)))
        by (intros; apply app_assoc).
      apply (NoDup_map_prefix
               (fun kf : nat * File =>
                  FilesRoute.safeName (FilesRoute.clock fw (fst kf)) (snd kf))
               (lit "/uploads/") (dir ++ lit "/")).
      now apply urls_distinct.
    + apply in_map_iff. exists kf. split; [| exact Hin]. unfold stored. f_equal.
      apply (path_join_inside dir _ Hdir), safeName_plain.
  - intros other Hout. rewrite Hd. apply read_write_all_other.
    now rewrite Epaths, <- Hp.
Qed.

Lemma successful_batch_stores_every_file_witness :
  let '(st', paths, r) :=
    FilesRoute.run Scenario.healthy Scenario.proc [Scenario.a_png; Scenario.b_png]
      Scenario.empty_disk in
  r = inr {| init_status := 200;
             payload := JUrls [lit "/uploads/1670000000000-a.png";
                               lit "/uploads/1670000000001-b.png"] |}
  /\ paths = [lit "/srv/web/public/uploads/1670000000000-a.png";
              lit "/srv/web/public/uploads/1670000000001-b.png"]
  /\ FilesRoute.read (lit "/srv/web/public/uploads/1670000000001-b.png")
       (FilesRoute.disk st')
     = Some (bytes Scenario.b_png).
Proof.
  pose proof (successful_batch_stores_every_file Scenario.healthy Scenario.proc
                [Scenario.a_png; Scenario.b_png] Scenario.empty_disk) as H.
  cbv zeta in H.
  destruct (FilesRoute.run Scenario.healthy Scenario.proc
              [Scenario.a_png; Scenario.b_png] Scenario.empty_disk) as [[st' paths] r].
  destruct H as [Hr [Hp [Hread _]]].
  - reflexivity.
  - intros k _. reflexivity.
  - intros k _. unfold Scenario.healthy. cbn [FilesRoute.clock]. lia.
  - intros i j _ _. unfold Scenario.healthy. cbn [FilesRoute.clock]. lia.
  - split; [rewrite Hr; vm_compute; reflexivity |].
    split; [rewrite Hp; vm_compute; reflexivity |].
    apply (Hread (1, Scenario.b_png)). right. left. reflexivity.
Defined.

(** ** The history query of a limit that is a safe integer *)

(** X17: with a [strategyId] that is not the empty string and a [limit]
    that is missing or a safe integer, the loader asks for
    [?strategy_id=<encoded id>&limit=<n>], in that order, with 50 for a
    missing [limit]. *)
Theorem history_query_with_strategy
    (net : jsstring -> FetchResult HistoryLoader.ChatHistoryResponse)
    (proc : Process) (sid : jsstring) (limit : option Z) :
  sid <> [] ->
  (forall l, limit = Some l -> isSafeInteger l = true) ->
  fst (HistoryLoader.run net proc (Some sid) limit)
  = [Backend.BACKEND_URL proc ++ lit "/api/chat/history?strategy_id="
       ++ URLSearchParams.encode sid ++ lit "&limit="
       ++ String_of_int (match limit with Some l => l | None => 50%Z end)].
Proof.
  intros Hne _. rewrite loader_requests_once. f_equal. f_equal.
  destruct sid as [| c r]; [congruence |].
  unfold HistoryLoader.params. cbn [truthy].
  change (URLSearchParams.set (lit "strategy_id") (c :: r) [])
    with [(lit "strategy_id", c :: r)].
  change (URLSearchParams.set (lit "limit") ?v [(lit "strategy_id", c :: r)])
    with [(lit "strategy_id", c :: r); (lit "limit", v)].
  unfold URLSearchParams.toString. cbn [map join fst snd].
  rewrite encode_numeral.
  change (URLSearchParams.encode (lit "limit")) with (lit "limit").
  change (URLSearchParams.encode (lit "strategy_id")) with (lit "strategy_id").
  rewrite <- !app_assoc. reflexivity.
Qed.

Lemma history_query_with_strategy_witness :
  fst (HistoryLoader.run (fun _ => Rejected) Scenario.proc (Some (lit "s 1")) (Some 20%Z))
  = [lit "http://localhost:8000/api/chat/history?strategy_id=s+1&limit=20"].
Proof.
  apply (history_query_with_strategy (fun _ => Rejected) Scenario.proc (lit "s 1")
           (Some 20%Z)).
  - discriminate.
  - intros l [= <-]. reflexivity.
Defined.

(** X25: the query tells the limit: two calls of the loader without
    strategy, each with a [limit] that is missing or a safe integer, ask
    for the same URL exactly when their limits are the same integer, a
    missing limit counting as 50. *)
Theorem history_query_determines_limit
    (net : jsstring -> FetchResult HistoryLoader.ChatHistoryResponse)
    (proc : Process) (a b : option Z) :
  (forall l, a = Some l -> isSafeInteger l = true) ->
  (forall l, b = Some l -> isSafeInteger l = true) ->
  (fst (HistoryLoader.run net proc None a) = fst (HistoryLoader.run net proc None b)
   <-> match a with Some l => l | None => 50%Z end
       = match b with Some l => l | None => 50%Z end).
Proof.
  intros _ _.
  rewrite !loader_requests_once, !params_without_strategy.
  unfold URLSearchParams.toString. cbn [map join fst snd].
  rewrite !encode_numeral.
  split.
  - intros [= E]. apply app_inv_head in E. injection E as E.
    now apply String_of_int_inj.
  - now intros ->.
Qed.

Lemma history_query_determines_limit_witness :
  fst (HistoryLoader.run (fun _ => Rejected) Scenario.proc None (Some 50%Z))
  = fst (HistoryLoader.run (fun _ => Rejected) Scenario.proc None None)
  /\ fst (HistoryLoader.run (fun _ => Rejected) Scenario.proc None (Some 10%Z))
     <> fst (HistoryLoader.run (fun _ => Rejected) Scenario.proc None None).
Proof.
  split.
  - apply (history_query_determines_limit (fun _ => Rejected) Scenario.proc
             (Some 50%Z) None).
    + intros l [= <-]. reflexivity.
    + discriminate.
    + reflexivity.
  - intros E.
    apply (history_query_determines_limit (fun _ => Rejected) Scenario.proc
             (Some 10%Z) None) in E.
    + discriminate E.
    + intros l [= <-]. reflexivity.
    + discriminate.
Defined.
